(** * PoDoFo: stream devices, encoding maps and signer identities

    A shallow embedding of
    - [src/podofo/auxiliary/StreamDevice.cpp]
      ([StreamDevice::SeekPosition], [NullStreamDevice],
      [SpanStreamDevice], [createFile]),
    - [src/podofo/main/PdfEncodingMap.cpp]
      ([PdfEncodingMap], [PdfEncodingMapOneByte], [PdfBuiltInEncoding]),
    - [src/podofo/main/PdfSigningContext.h] ([PdfSignerId] and its hasher),
    together with the properties the design document states about them.

    Conventions.  A [size_t] is a [Z] in [0, 2^64), a [ssize_t] a [Z] in
    [-2^63, 2^63); every conversion and every arithmetic operation that can
    wrap is written with [to_size_t], [to_unsigned] or [to_uchar].  A
    function that can raise a [PdfError] returns a [result]; a member
    function that also mutates its object returns the new object next to
    the result, since a C++ exception does not roll the object back. *)

From Stdlib Require Import ZArith Lia Bool.
From stdpp Require Import base gmap list strings.

Local Open Scope Z_scope.

(** ** Error codes and results *)

Inductive PdfErrorCode : Set :=
| IOError
| ValueOutOfRange
| InvalidEnumValue
| InternalLogic
| InvalidHandle
| NotImplemented.

Inductive result (A : Type) : Type :=
| Ok (a : A)
| Raise (e : PdfErrorCode).

Arguments Ok {A} a.
Arguments Raise {A} e.

(** [result] is an error monad; stdpp's [x ← r; k] sequences two calls and
    stops at the first one that raises. *)
#[global] Instance result_ret : MRet result := fun _ a => Ok a.
#[global] Instance result_bind : MBind result := fun _ _ k r =>
  match r with
  | Ok a => k a
  | Raise e => Raise e
  end.

(** ** Machine integers *)

Definition SIZE_MOD : Z := 2 ^ 64.
Definition SSIZE_MIN : Z := - 2 ^ 63.
Definition SSIZE_MAX : Z := 2 ^ 63 - 1.
Definition UINT_MOD : Z := 2 ^ 32.

(** [(size_t)z]. *)
Definition to_size_t (z : Z) : Z := z mod SIZE_MOD.
(** [(ssize_t)z], two's complement. *)
Definition to_ssize_t (z : Z) : Z := (z + 2 ^ 63) mod SIZE_MOD - 2 ^ 63.
(** [(unsigned)z]. *)
Definition to_unsigned (z : Z) : Z := z mod UINT_MOD.
(** [(unsigned char)z]. *)
Definition to_uchar (z : Z) : Z := z mod 256.

Definition is_size_t (z : Z) : Prop := 0 <= z < SIZE_MOD.
Definition is_ssize_t (z : Z) : Prop := SSIZE_MIN <= z <= SSIZE_MAX.

(** The size of an object in memory: at most [PTRDIFF_MAX]. *)
Definition is_object_size (z : Z) : Prop := 0 <= z <= SSIZE_MAX.

Ltac unfold_ints :=
  unfold is_size_t, is_ssize_t, to_size_t, to_ssize_t, to_unsigned, to_uchar,
    SIZE_MOD, SSIZE_MIN, SSIZE_MAX, UINT_MOD in *.

(** Closes arithmetic goals that mention the wrap-arounds above. *)
Ltac wrap_lia := unfold_ints; Z.div_mod_to_equations; lia.

(** Splits on every comparison of two integers in the goal. *)
Ltac zbool :=
  repeat match goal with
  | |- context [?a >? ?b] => rewrite (Z.gtb_ltb a b)
  | |- context [?a >=? ?b] => rewrite (Z.geb_leb a b)
  | |- context [?a <? ?b] => destruct (Z.ltb_spec a b)
  | |- context [?a <=? ?b] => destruct (Z.leb_spec a b)
  | |- context [?a =? ?b] => destruct (Z.eqb_spec a b)
  end.

(** ** StreamDevice.cpp *)

Module StreamDevice.

(** [enum class SeekDirection]; [SeekOutOfSet] stands for any value that is
    none of the three enumerators and so reaches [default:]. *)
Inductive SeekDirection : Set :=
| SeekBegin
| SeekCurrent
| SeekEnd
| SeekOutOfSet.

(** [size_t StreamDevice::SeekPosition(size_t curpos, size_t devlen,
    ssize_t offset, SeekDirection direction)] *)
Definition SeekPosition (curpos devlen offset : Z) (direction : SeekDirection)
  : result Z :=
  match direction with
  | SeekBegin =>
      if offset <? 0 then Raise IOError
      else if to_size_t offset >? devlen then Raise ValueOutOfRange
      else Ok (to_size_t offset)
  | SeekCurrent =>
      if offset =? 0 then Ok curpos
      else if offset >? 0 then
        if to_size_t offset >? to_size_t (devlen - curpos)
        then Raise ValueOutOfRange
        else Ok (to_size_t (curpos + to_size_t offset))
      else
        if to_size_t (to_ssize_t (- offset)) >? curpos
        then Raise ValueOutOfRange
        else Ok (to_size_t (curpos + to_size_t offset))
  | SeekEnd =>
      if offset >? 0 then Raise IOError
      else if to_size_t (to_ssize_t (- offset)) >? devlen
      then Raise ValueOutOfRange
      else Ok (to_size_t (to_size_t (devlen + to_size_t offset)))
  | SeekOutOfSet => Raise InvalidEnumValue
  end.

(** *** NullStreamDevice *)

Record NullStreamDevice : Set := mkNull {
  null_Length : Z;
  null_Position : Z
}.

(** [NullStreamDevice::NullStreamDevice()] *)
Definition NullStreamDevice_new : NullStreamDevice := mkNull 0 0.

(** [bool NullStreamDevice::peek(char& ch) const]: the pair is
    ([ch], returned flag). *)
Definition null_peek (d : NullStreamDevice) : Z * bool :=
  (0, negb (null_Length d =? null_Position d)).

Definition null_Eof (d : NullStreamDevice) : bool :=
  null_Position d =? null_Length d.

(** [void NullStreamDevice::writeBuffer(const char* buffer, size_t size)] *)
Definition null_writeBuffer (d : NullStreamDevice) (size : Z)
  : NullStreamDevice :=
  let pos := to_size_t (null_Position d + size) in
  if pos >? null_Length d then mkNull pos pos
  else mkNull (null_Length d) pos.

(** [size_t NullStreamDevice::readBuffer(char*, size_t size, bool& eof)]:
    returns (bytes read, eof) and the updated device. *)
Definition null_readBuffer (d : NullStreamDevice) (size : Z)
  : (Z * bool) * NullStreamDevice :=
  let prevpos := null_Position d in
  let pos := Z.min (null_Length d) (to_size_t (null_Position d + size)) in
  ((to_size_t (pos - prevpos), pos =? null_Length d),
   mkNull (null_Length d) pos).

(** [bool NullStreamDevice::readChar(char& ch)]: returns ([ch], flag) and
    the updated device. *)
Definition null_readChar (d : NullStreamDevice)
  : (Z * bool) * NullStreamDevice :=
  let ch := 0 in
  if null_Position d =? null_Length d then ((ch, false), d)
  else ((ch, false),
        mkNull (null_Length d) (to_size_t (null_Position d + 1))).

(** [void NullStreamDevice::seek(ssize_t offset, SeekDirection direction)] *)
Definition null_seek (d : NullStreamDevice) (offset : Z)
    (direction : SeekDirection) : result unit * NullStreamDevice :=
  match SeekPosition (null_Position d) (null_Length d) offset direction with
  | Ok p => (Ok tt, mkNull (null_Length d) p)
  | Raise e => (Raise e, d)
  end.

(** *** SpanStreamDevice *)

(** The device does not own [m_buffer]; the bytes it points to are kept in
    the record so that [memcpy] has something to act on. *)
Record SpanStreamDevice : Set := mkSpan {
  m_buffer : list Z;
  m_Length : Z;
  m_Position : Z
}.

(** [SpanStreamDevice::SpanStreamDevice(char* buffer, size_t size,
    DeviceAccess access)] *)
Definition SpanStreamDevice_new (buffer : list Z) : SpanStreamDevice :=
  mkSpan buffer (Z.of_nat (length buffer)) 0.

Definition span_GetLength (d : SpanStreamDevice) : Z := m_Length d.
Definition span_GetPosition (d : SpanStreamDevice) : Z := m_Position d.

(** [bool SpanStreamDevice::Eof() const] *)
Definition span_Eof (d : SpanStreamDevice) : bool :=
  m_Position d =? m_Length d.

(** [std::memcpy(dst + pos, src, size)] on the modelled bytes. *)
Definition memcpy_at (dst : list Z) (pos : Z) (src : list Z) : list Z :=
  take (Z.to_nat pos) dst ++ src ++ drop (Z.to_nat pos + length src) dst.

(** [void SpanStreamDevice::writeBuffer(const char* buffer, size_t size)];
    [size] is the length of [buffer]. *)
Definition span_writeBuffer (d : SpanStreamDevice) (buffer : list Z)
  : result unit * SpanStreamDevice :=
  let size := Z.of_nat (length buffer) in
  if to_size_t (m_Position d + size) >? m_Length d
  then (Raise ValueOutOfRange, d)
  else (Ok tt,
        mkSpan (memcpy_at (m_buffer d) (m_Position d) buffer)
               (m_Length d)
               (to_size_t (m_Position d + size))).

(** [bool SpanStreamDevice::readChar(char& ch)] *)
Definition span_readChar (d : SpanStreamDevice)
  : (Z * bool) * SpanStreamDevice :=
  if m_Position d =? m_Length d then ((0, false), d)
  else ((nth (Z.to_nat (m_Position d)) (m_buffer d) 0, true),
        mkSpan (m_buffer d) (m_Length d) (to_size_t (m_Position d + 1))).

(** [bool SpanStreamDevice::peek(char& ch) const] *)
Definition span_peek (d : SpanStreamDevice) : Z * bool :=
  if m_Position d =? m_Length d then (0, false)
  else (nth (Z.to_nat (m_Position d)) (m_buffer d) 0, true).

(** [void SpanStreamDevice::seek(ssize_t offset, SeekDirection direction)] *)
Definition span_seek (d : SpanStreamDevice) (offset : Z)
    (direction : SeekDirection) : result unit * SpanStreamDevice :=
  match SeekPosition (m_Position d) (m_Length d) offset direction with
  | Ok p => (Ok tt, mkSpan (m_buffer d) (m_Length d) p)
  | Raise e => (Raise e, d)
  end.

(** *** createFile *)

(** [enum class FileMode]; [FileModeOutOfSet] stands for any value that is
    none of the six enumerators and so reaches [default:]. *)
Inductive FileMode : Set :=
| CreateNew
| Create
| Open
| OpenOrCreate
| Truncate
| Append
| FileModeOutOfSet.

(** Modelled from the spec: [enum class DeviceAccess] is declared in
    StreamDevice.h, which is not part of the sources at hand.  The design
    document calls it a flag-like mode with the members Read, Write and
    ReadWrite, and [createFile] tests [access & DeviceAccess::Write]; so it
    is a bit set with [ReadWrite = Read | Write].  Any other [Z] is a value
    outside the enumeration. *)
Definition DeviceAccess : Set := Z.
Definition Read : DeviceAccess := 1.
Definition Write : DeviceAccess := 2.
Definition ReadWrite : DeviceAccess := Z.lor Read Write.

(** The host as [createFile] sees it: [fs::exists(fs::u8path(filepath))],
    [utls::fopen(filepath, cmode)] ([None] is the null [FILE*]) and whether
    [_WIN32] is defined. *)
Record Host (FILE : Type) : Type := mkHost {
  fs_exists : string -> bool;
  utls_fopen : string -> string -> option FILE;
  WIN32 : bool
}.

Arguments fs_exists {FILE} h filepath.
Arguments utls_fopen {FILE} h filepath cmode.
Arguments WIN32 {FILE} h.

Section createFile.
Context {FILE : Type} (host : Host FILE).

(** The inner [switch (access)] of every [FileMode] but [Open]:
    [w] for Write, [wplus] for ReadWrite. *)
Definition write_cmode (access : DeviceAccess) (w wplus : string)
  : result string :=
  if access =? Write then Ok w
  else if access =? ReadWrite then Ok wplus
  else Raise InvalidEnumValue.

(** The [switch (mode)] of [createFile]: the value of [cmode] when the
    switch is left, or the error raised inside it. *)
Definition createFile_cmode (filepath : string) (mode : FileMode)
    (access : DeviceAccess) : result string :=
  match mode with
  | CreateNew =>
      if access =? Read then Raise IOError
      else if fs_exists host filepath then Raise IOError
      else write_cmode access "w" "w+"
  | Create =>
      if access =? Read then Raise IOError
      else write_cmode access "w" "w+"
  | Open =>
      if negb (Z.land access Write =? 0) && negb (fs_exists host filepath)
      then Raise IOError
      else if access =? Read then Ok "r"
      else if access =? Write then Ok "w"
      else if access =? ReadWrite then Ok "r+"
      else Raise InvalidEnumValue
  | OpenOrCreate =>
      if access =? Read then Raise IOError
      else
        let exists_ := fs_exists host filepath in
        write_cmode access "w" (if exists_ then "r+" else "w+")
  | Truncate =>
      if access =? Read then Raise IOError
      else if negb (fs_exists host filepath) then Raise IOError
      else write_cmode access "w" "w+"
  | Append =>
      if access =? Read then Raise IOError
      else write_cmode access "a" "a+"
  | FileModeOutOfSet => Raise InvalidEnumValue
  end.

(** [#if _WIN32 cmode.append("b");] *)
Definition platform_cmode (cmode : string) : string :=
  if WIN32 host then cmode +:+ "b" else cmode.

(** [FILE* createFile(const string_view& filepath, FileMode mode,
    DeviceAccess access)] *)
Definition createFile (filepath : string) (mode : FileMode)
    (access : DeviceAccess) : result FILE :=
  cmode ← createFile_cmode filepath mode access;
  match utls_fopen host filepath (platform_cmode cmode) with
  | None => Raise IOError
  | Some stream => Ok stream
  end.
End createFile.

(** The enumerators of [FileMode] other than [Open]. *)
Definition modes_other_than_Open : list FileMode :=
  [CreateNew; Create; OpenOrCreate; Truncate; Append].

(** ISO C: [fopen] in mode r fails on a file that does not exist. *)
Definition fopen_r_needs_file {FILE : Type} (host : Host FILE) : Prop :=
  forall filepath,
    fs_exists host filepath = false ->
    utls_fopen host filepath (platform_cmode host "r") = None.

(** A host for examples: the files are those of [files]; [fopen] follows
    ISO C (the r modes need the file, the other modes create it) and hands
    out the mode string as the handle. *)
Definition list_host (files : list string) (win32 : bool) : Host string :=
  mkHost string
    (fun p => bool_decide (p ∈ files))
    (fun p cmode =>
       if String.prefix "r" cmode
       then (if bool_decide (p ∈ files) then Some cmode else None)
       else Some cmode)
    win32.

(** *** Further members of the devices *)

(** [size_t SpanStreamDevice::readBuffer(char* buffer, size_t size,
    bool& eof)]: returns (bytes read, eof, the destination after the
    [memcpy]) and the updated device. *)
Definition span_readBuffer (d : SpanStreamDevice) (buffer : list Z) (size : Z)
  : (Z * bool * list Z) * SpanStreamDevice :=
  let readCount := Z.min size (to_size_t (m_Length d - m_Position d)) in
  let data :=
    take (Z.to_nat readCount) (drop (Z.to_nat (m_Position d)) (m_buffer d)) in
  let pos := to_size_t (m_Position d + readCount) in
  ((readCount, pos =? m_Length d, memcpy_at buffer 0 data),
   mkSpan (m_buffer d) (m_Length d) pos).

(** A span device over a buffer of its length, positioned inside it. *)
Definition span_wf (d : SpanStreamDevice) : Prop :=
  Z.of_nat (length (m_buffer d)) = m_Length d
  /\ 0 <= m_Position d <= m_Length d
  /\ is_object_size (m_Length d).

(** A null device positioned inside its length. *)
Definition null_wf (d : NullStreamDevice) : Prop :=
  0 <= null_Position d <= null_Length d /\ is_size_t (null_Length d).

(** [FileStreamDevice::FileStreamDevice(const string_view& filepath)]:
    the handle [m_file] it is constructed with. *)
Definition FileStreamDevice_open {FILE : Type} (host : Host FILE)
    (filepath : string) : result FILE :=
  createFile host filepath Open Read.

(** The access that [FileStreamDevice(filepath, mode)] derives:
    [mode == FileMode::Append ? DeviceAccess::Write : DeviceAccess::ReadWrite]. *)
Definition mode_access (mode : FileMode) : DeviceAccess :=
  match mode with
  | Append => Write
  | _ => ReadWrite
  end.

(** [FileStreamDevice::FileStreamDevice(const string_view& filepath,
    FileMode mode)] *)
Definition FileStreamDevice_mode {FILE : Type} (host : Host FILE)
    (filepath : string) (mode : FileMode) : result FILE :=
  createFile host filepath mode (mode_access mode).

(** The position a seek aims at, as an integer: the offset counted from
    the begin, from the current position, or from the end. *)
Definition seek_target (curpos devlen offset : Z) (direction : SeekDirection)
  : option Z :=
  match direction with
  | SeekBegin => Some offset
  | SeekCurrent => Some (curpos + offset)
  | SeekEnd => Some (devlen + offset)
  | SeekOutOfSet => None
  end.

(** The mode strings with which [fopen] empties a file that exists. *)
Definition truncating (cmode : string) : bool :=
  String.prefix "w" cmode.

(** Splits on the three values of [DeviceAccess] and on any other value. *)
Ltac access_cases access :=
  unfold write_cmode;
  destruct (Z.eqb_spec access Read) as [-> |];
  [| destruct (Z.eqb_spec access Write) as [-> |];
     [| destruct (Z.eqb_spec access ReadWrite) as [-> |]]];
  unfold Read, Write, ReadWrite in *; cbn;
  try match goal with
      | |- context [Z.land ?a ?w =? 0] =>
          first [ is_var a; destruct (Z.land a w =? 0)
                | let v := eval vm_compute in (Z.land a w =? 0) in
                  change (Z.land a w =? 0) with v ]
      end; cbn.

End StreamDevice.

(** ** PdfEncodingMap.cpp *)

Module EncodingMap.

(** Modelled from the spec: [PdfCharCode] is declared in a header that is
    not part of the sources at hand; the design document describes it as
    an unsigned numeric value plus a byte width, and the code here builds
    it as [{ code, i }] and reads [.Code]. *)
Record PdfCharCode : Set := mkCharCode {
  Code : Z;
  CodeSpaceSize : Z
}.

(** [codeUnit = { }]: the value-initialised char code. *)
Definition PdfCharCode_null : PdfCharCode := mkCharCode 0 0.

(** Modelled from the spec: [CodePointSpan] is declared in a header that
    is not part of the sources at hand; it is an ordered, small sequence
    of code points.  A [char32_t] is a [Z]; a [CodePointSpan] or
    [unicodeview] is the list of its code points, [CodePointSpan(cp)] the
    singleton [[cp]]. *)
Definition CodePointSpan : Set := list Z.

(** Modelled from the spec: [PdfEncodingLimits] is declared in a header
    that is not part of the sources at hand; it holds the minimum and
    maximum byte widths of the char codes a map recognises ([unsigned
    char]) and the lowest and highest char code of its codespace. *)
Record PdfEncodingLimits : Set := mkLimits {
  MinCodeSize : Z;
  MaxCodeSize : Z;
  FirstChar : PdfCharCode;
  LastChar : PdfCharCode
}.

(** The virtual members of [class PdfEncodingMap] that the functions below
    call.  A reference parameter that the callee may write ([codeUnit],
    [codePoints]) is passed in and returned next to the [bool]. *)
Record PdfEncodingMap : Type := mkEncodingMap {
  GetLimits : result PdfEncodingLimits;
  HasLigaturesSupport : bool;
  tryGetCharCode : Z -> PdfCharCode -> result (bool * PdfCharCode);
  tryGetCharCodeSpan : list Z -> PdfCharCode -> result (bool * PdfCharCode);
  tryGetCodePoints :
    PdfCharCode -> option Z -> CodePointSpan -> result (bool * CodePointSpan)
}.

(** [bool PdfEncodingMap::tryGetCharCodeSpan(...)], the base class body. *)
Definition base_tryGetCharCodeSpan (ligature : list Z) (codeUnit : PdfCharCode)
  : result (bool * PdfCharCode) :=
  Raise NotImplemented.

(** [bool PdfEncodingMap::HasLigaturesSupport() const], the base class
    body. *)
Definition base_HasLigaturesSupport : bool := false.

Section PdfEncodingMap.
Context (m : PdfEncodingMap).

(** [bool PdfEncodingMap::TryGetCharCode(char32_t codePoint,
    PdfCharCode& codeUnit) const] *)
Definition TryGetCharCode (codePoint : Z) (codeUnit : PdfCharCode)
  : result (bool * PdfCharCode) :=
  tryGetCharCode m codePoint codeUnit.

(** [bool PdfEncodingMap::TryGetCharCode(const unicodeview& codePoints,
    PdfCharCode& codeUnit) const] *)
Definition TryGetCharCode_span (codePoints : list Z) (codeUnit : PdfCharCode)
  : result (bool * PdfCharCode) :=
  if Z.of_nat (length codePoints) =? 1 then
    tryGetCharCode m (nth 0 codePoints 0) codeUnit
  else if (Z.of_nat (length codePoints) =? 0) || negb (HasLigaturesSupport m)
  then Ok (false, PdfCharCode_null)
  else tryGetCharCodeSpan m codePoints codeUnit.

(** [bool PdfEncodingMap::TryGetCodePoints(const PdfCharCode& codeUnit,
    CodePointSpan& codePoints) const] *)
Definition TryGetCodePoints (codeUnit : PdfCharCode)
    (codePoints : CodePointSpan) : result (bool * CodePointSpan) :=
  tryGetCodePoints m codeUnit None codePoints.

(** What [tryGetNextCodePoints] leaves behind: the returned flag, the
    text from [it] to [end], and the two output parameters. *)
Record NextCodePoints : Set := mkNext {
  next_found : bool;
  next_it : list Z;
  next_codeUnit : PdfCharCode;
  next_codePoints : CodePointSpan
}.

(** The [while (curr != end)] loop of [tryGetNextCodePoints].  [it] is
    the text from the saved iterator on, [curr] the text from [curr]
    on; [code] is an [unsigned], [i] an [unsigned char]. *)
Fixpoint tryGetNextCodePoints_loop (limits : PdfEncodingLimits)
    (it curr : list Z) (code i : Z)
    (codeUnit : PdfCharCode) (codePoints : CodePointSpan)
  : result NextCodePoints :=
  match curr with
  | [] => Ok (mkNext false it codeUnit codePoints)
  | ch :: curr' =>
      if i >? MaxCodeSize limits
      then Ok (mkNext false it codeUnit codePoints)
      else
        let code := Z.lor (to_unsigned (Z.shiftl code 8)) (to_uchar ch) in
        let codeUnit := mkCharCode code i in
        if i <? MinCodeSize limits then
          tryGetNextCodePoints_loop limits it curr' code (to_uchar (i + 1))
            codeUnit codePoints
        else
          match tryGetCodePoints m codeUnit None codePoints with
          | Raise e => Raise e
          | Ok (false, codePoints') =>
              tryGetNextCodePoints_loop limits it curr' code
                (to_uchar (i + 1)) codeUnit codePoints'
          | Ok (true, codePoints') =>
              Ok (mkNext true curr' codeUnit codePoints')
          end
  end.

(** [bool PdfEncodingMap::tryGetNextCodePoints(string_view::iterator& it,
    const string_view::iterator& end, PdfCharCode& codeUnit,
    CodePointSpan& codePoints) const] *)
Definition tryGetNextCodePoints (it : list Z) (codeUnit : PdfCharCode)
    (codePoints : CodePointSpan) : result NextCodePoints :=
  limits ← GetLimits m;
  tryGetNextCodePoints_loop limits it it 0 1 codeUnit codePoints.
End PdfEncodingMap.

(** The code that [code <<= 8; code |= (uint8_t)*curr] has accumulated
    once the bytes [bytes] have been read. *)
Definition accumulate (bytes : list Z) : Z :=
  foldl (fun code ch => Z.lor (to_unsigned (Z.shiftl code 8)) (to_uchar ch))
    0 bytes.

(** The char code made of the first [k] bytes of [text]. *)
Definition code_after (text : list Z) (k : nat) : PdfCharCode :=
  mkCharCode (accumulate (take k text)) (Z.of_nat k).

(** [lookup] is what [tryGetCodePoints] of the map [m] computes: the map
    does not raise, and it returns true with the code points [lookup]
    gives, or false. *)
Definition lookup_of (m : PdfEncodingMap)
    (lookup : PdfCharCode -> option CodePointSpan) : Prop :=
  forall codeUnit codePoints,
    match lookup codeUnit with
    | Some found => tryGetCodePoints m codeUnit None codePoints = Ok (true, found)
    | None =>
        exists codePoints',
          tryGetCodePoints m codeUnit None codePoints = Ok (false, codePoints')
    end.

(** What [tryGetNextCodePoints] promises for the text [text] when it
    leaves [r] behind. *)
Definition decoded (limits : PdfEncodingLimits)
    (lookup : PdfCharCode -> option CodePointSpan) (text : list Z)
    (r : NextCodePoints) : Prop :=
  (next_found r = true ->
     exists k : nat,
       (1 <= k <= length text)%nat
       /\ MinCodeSize limits <= Z.of_nat k <= MaxCodeSize limits
       /\ next_codeUnit r = code_after text k
       /\ lookup (code_after text k) = Some (next_codePoints r)
       /\ next_it r = drop k text
       /\ forall j : nat,
            (1 <= j < k)%nat -> MinCodeSize limits <= Z.of_nat j ->
            lookup (code_after text j) = None)
  /\ (next_found r = false ->
      next_it r = text
      /\ forall j : nat,
           (1 <= j <= length text)%nat ->
           MinCodeSize limits <= Z.of_nat j <= MaxCodeSize limits ->
           lookup (code_after text j) = None).

(** *** Serialisation *)

Definition LF : string := String (Ascii.ascii_of_nat 10) EmptyString.

(** The helpers of [utls::] and of [PdfCharCode] that the serialisers call
    and whose bodies are not part of the sources at hand.
    - [WriteUtf16BETo cp]: the bytes of the [u16string] after
      [utls::WriteUtf16BETo(u16tmp, cp)];
    - [WriteCharHexTo ch]: the two characters that
      [utls::WriteCharHexTo(hexbuf, ch)] puts in [hexbuf];
    - [WriteHexTo code]: the content of [temp] after
      [code.WriteHexTo(temp)];
    - [PdfCharCode_ctor code]: the one-argument constructor
      [PdfCharCode(code)]. *)
Record Utls : Type := mkUtls {
  WriteUtf16BETo : Z -> list Z;
  WriteCharHexTo : Z -> string;
  WriteHexTo : PdfCharCode -> string;
  PdfCharCode_ctor : Z -> PdfCharCode
}.

Section Serialisation.
Context (utls : Utls).

(** The body of the [for] over [codePoints] in [AppendUTF16CodeTo], for
    one code point: the separator, then two hex characters per byte. *)
Definition AppendUTF16CodeTo_step (acc : string * bool) (cp : Z)
  : string * bool :=
  let '(stream, first) := acc in
  let stream := if first then stream else stream +:+ " " in
  let data := WriteUtf16BETo utls cp in
  (foldl (fun stream ch => stream +:+ WriteCharHexTo utls ch) stream data,
   false).

(** [void PdfEncodingMap::AppendUTF16CodeTo(OutputStream& stream,
    const unicodeview& codePoints, u16string& u16tmp)]; the stream is the
    text written to it so far. *)
Definition AppendUTF16CodeTo (stream : string) (codePoints : list Z)
  : string :=
  let stream := stream +:+ "<" in
  let '(stream, _) := foldl AppendUTF16CodeTo_step (stream, true) codePoints in
  stream +:+ ">".

Context (m : PdfEncodingMap).

(** The [for (; code <= lastCode; code++)] loop of
    [PdfEncodingMapOneByte::AppendToUnicodeEntries]; [code] is an
    [unsigned], so the loop is given fuel: [None] means the fuel ran
    out. *)
Fixpoint AppendToUnicodeEntries_loop (fuel : nat) (code lastCode : Z)
    (stream : string) (codePoints : CodePointSpan)
  : option (result string) :=
  match fuel with
  | O => None
  | S fuel =>
      if code <=? lastCode then
        match TryGetCodePoints m (PdfCharCode_ctor utls code) codePoints with
        | Raise e => Some (Raise e)
        | Ok (false, codePoints') =>
            AppendToUnicodeEntries_loop fuel (to_unsigned (code + 1))
              lastCode stream codePoints'
        | Ok (true, codePoints') =>
            AppendToUnicodeEntries_loop fuel (to_unsigned (code + 1))
              lastCode (AppendUTF16CodeTo stream codePoints' +:+ LF)
              codePoints'
        end
      else Some (Ok stream)
  end.

(** [void PdfEncodingMapOneByte::AppendToUnicodeEntries(OutputStream&
    stream, charbuff& temp) const].  [PODOFO_ASSERT(limits.MaxCodeSize
    == 1)] is a precondition of the call. *)
Definition AppendToUnicodeEntries (fuel : nat) (stream : string)
  : option (result string) :=
  match GetLimits m with
  | Raise e => Some (Raise e)
  | Ok limits =>
      let code := Code (FirstChar limits) in
      let lastCode := Code (LastChar limits) in
      let stream := stream +:+ "1 beginbfrange" +:+ LF in
      let stream := stream +:+ WriteHexTo utls (FirstChar limits) in
      let stream := stream +:+ " " in
      let stream := stream +:+ WriteHexTo utls (LastChar limits) in
      let stream := stream +:+ " [" +:+ LF in
      match AppendToUnicodeEntries_loop fuel code lastCode stream [] with
      | None => None
      | Some (Raise e) => Some (Raise e)
      | Some (Ok stream) =>
          let stream := stream +:+ "]" +:+ LF in
          Some (Ok (stream +:+ "endbfrange" +:+ LF))
      end
  end.
End Serialisation.

(** The block the design document describes for a one-byte map: one line
    per code from [first] to [last] that [lookup] finds, holding the
    UTF-16BE hex literal of its code points; a code that [lookup] does not
    find contributes no line. *)
Definition bfrange_lines (utls : Utls)
    (lookup : PdfCharCode -> option CodePointSpan) (first last : Z)
  : list string :=
  omap (fun code =>
          (fun codePoints => AppendUTF16CodeTo utls "" codePoints +:+ LF)
            <$> lookup (PdfCharCode_ctor utls code))
       (seqZ first (last - first + 1)).

Definition bfrange_block (utls : Utls) (limits : PdfEncodingLimits)
    (lookup : PdfCharCode -> option CodePointSpan) : string :=
  "1 beginbfrange" +:+ LF
  +:+ WriteHexTo utls (FirstChar limits) +:+ " "
  +:+ WriteHexTo utls (LastChar limits) +:+ " [" +:+ LF
  +:+ foldr String.append ""
        (bfrange_lines utls lookup (Code (FirstChar limits))
           (Code (LastChar limits)))
  +:+ "]" +:+ LF
  +:+ "endbfrange" +:+ LF.

(** *** PdfBuiltInEncoding *)

(** A built-in encoding: the table its subclass returns from
    [GetToUnicodeTable()] (256 entries, the concrete tables are not part of
    the sources at hand) and the member [m_EncodingTable]. *)
Record PdfBuiltInEncoding : Type := mkBuiltIn {
  GetToUnicodeTable : list Z;
  m_EncodingTable : gmap Z Z
}.

(** [cpUnicodeTable[i]] *)
Definition table_at (cpUnicodeTable : list Z) (i : Z) : Z :=
  nth (Z.to_nat i) cpUnicodeTable 0.

(** One turn of the loop of [initEncodingTable]:
    [m_EncodingTable[cpUnicodeTable[i]] = static_cast<unsigned char>(i)]. *)
Definition initEncodingTable_step (cpUnicodeTable : list Z)
    (table : gmap Z Z) (i : Z) : gmap Z Z :=
  <[table_at cpUnicodeTable i := to_uchar i]> table.

(** [void PdfBuiltInEncoding::initEncodingTable()] *)
Definition initEncodingTable (e : PdfBuiltInEncoding) : PdfBuiltInEncoding :=
  if negb (bool_decide (m_EncodingTable e = ∅)) then e
  else
    let cpUnicodeTable := GetToUnicodeTable e in
    mkBuiltIn cpUnicodeTable
      (foldl (initEncodingTable_step cpUnicodeTable) (m_EncodingTable e)
         (seqZ 0 256)).

(** [bool PdfBuiltInEncoding::tryGetCharCode(char32_t codePoint,
    PdfCharCode& codeUnit) const]; the [const_cast] makes it update the
    encoding, which is returned as well. *)
Definition builtin_tryGetCharCode (e : PdfBuiltInEncoding) (codePoint : Z)
  : (bool * PdfCharCode) * PdfBuiltInEncoding :=
  let e := initEncodingTable e in
  match m_EncodingTable e !! codePoint with
  | None => ((false, PdfCharCode_null), e)
  | Some found => ((true, mkCharCode (to_uchar found) 1), e)
  end.

(** [bool PdfBuiltInEncoding::tryGetCodePoints(const PdfCharCode& codeUnit,
    const unsigned* cidId, CodePointSpan& codePoints) const] *)
Definition builtin_tryGetCodePoints (e : PdfBuiltInEncoding)
    (codeUnit : PdfCharCode) (cidId : option Z) (codePoints : CodePointSpan)
  : bool * CodePointSpan :=
  if Code codeUnit >=? 256 then (false, codePoints)
  else (true, [table_at (GetToUnicodeTable e) (Code codeUnit)]).

(** The table that the loop of [initEncodingTable] builds from nothing. *)
Definition reverse_table (cpUnicodeTable : list Z) : gmap Z Z :=
  foldl (initEncodingTable_step cpUnicodeTable) ∅ (seqZ 0 256).

(** The states [m_EncodingTable] can be in: not built yet, or built. *)
Definition encoding_ok (e : PdfBuiltInEncoding) : Prop :=
  m_EncodingTable e = ∅
  \/ m_EncodingTable e = reverse_table (GetToUnicodeTable e).

(** The highest code below [n] whose forward entry is [codePoint]. *)
Fixpoint highest_code (cpUnicodeTable : list Z) (codePoint : Z) (n : nat)
  : option Z :=
  match n with
  | O => None
  | S k =>
      if table_at cpUnicodeTable (Z.of_nat k) =? codePoint
      then Some (Z.of_nat k)
      else highest_code cpUnicodeTable codePoint k
  end.

(** [PdfBuiltInEncoding::PdfBuiltInEncoding(const PdfName& name)]: the
    limits are [{ 1, 1, PdfCharCode(0), PdfCharCode(0xFF) }] and the
    reverse table is empty. *)
Definition PdfBuiltInEncoding_new (cpUnicodeTable : list Z)
  : PdfBuiltInEncoding := mkBuiltIn cpUnicodeTable ∅.

Definition builtin_GetLimits (utls : Utls) : PdfEncodingLimits :=
  mkLimits 1 1 (PdfCharCode_ctor utls 0) (PdfCharCode_ctor utls 255).

(** A built-in encoding seen through the [PdfEncodingMap] interface.
    [tryGetCharCode] drops the updated encoding: building the reverse
    table a second time gives the same table. *)
Definition builtin_map (utls : Utls) (e : PdfBuiltInEncoding)
  : PdfEncodingMap :=
  mkEncodingMap
    (Ok (builtin_GetLimits utls))
    base_HasLigaturesSupport
    (fun codePoint _ => Ok (fst (builtin_tryGetCharCode e codePoint)))
    base_tryGetCharCodeSpan
    (fun codeUnit cidId codePoints =>
       Ok (builtin_tryGetCodePoints e codeUnit cidId codePoints)).

(** What [tryGetCodePoints] of a built-in encoding computes. *)
Definition builtin_lookup (e : PdfBuiltInEncoding) (codeUnit : PdfCharCode)
  : option CodePointSpan :=
  if Code codeUnit >=? 256 then None
  else Some [table_at (GetToUnicodeTable e) (Code codeUnit)].

(** *** Maps and tables used as concrete inputs *)

(** A codespace range: the codes of byte width [cs_width] from [cs_lo] to
    [cs_hi]. *)
Record CodeSpaceRange : Set := mkRange {
  cs_width : Z;
  cs_lo : Z;
  cs_hi : Z
}.

Definition in_range (codeUnit : PdfCharCode) (r : CodeSpaceRange) : bool :=
  (CodeSpaceSize codeUnit =? cs_width r)
  && (cs_lo r <=? Code codeUnit) && (Code codeUnit <=? cs_hi r).

(** The lookup of [codespace_map] below: a code of one of the ranges has
    the code point of the same value. *)
Definition codespace_lookup (ranges : list CodeSpaceRange)
    (codeUnit : PdfCharCode) : option CodePointSpan :=
  if existsb (in_range codeUnit) ranges then Some [Code codeUnit] else None.

(** An implementation of the interface that maps every code of the given
    codespace ranges to the code point of the same value, and back. *)
Definition codespace_map (limits : PdfEncodingLimits)
    (ranges : list CodeSpaceRange) : PdfEncodingMap :=
  mkEncodingMap
    (Ok limits)
    base_HasLigaturesSupport
    (fun codePoint _ =>
       match List.find (fun r => (cs_lo r <=? codePoint) && (codePoint <=? cs_hi r))
               ranges with
       | Some r => Ok (true, mkCharCode codePoint (cs_width r))
       | None => Ok (false, PdfCharCode_null)
       end)
    base_tryGetCharCodeSpan
    (fun codeUnit _ codePoints =>
       match codespace_lookup ranges codeUnit with
       | Some found => Ok (true, found)
       | None => Ok (false, codePoints)
       end).

(** The map of the greedy decoding scenario: one-byte codes 0x00-0x7F and
    two-byte codes 0x8140-0xFEFE. *)
Definition mixed_width_limits : PdfEncodingLimits :=
  mkLimits 1 2 (mkCharCode 0x00 1) (mkCharCode 0xFEFE 2).

Definition mixed_width_ranges : list CodeSpaceRange :=
  [mkRange 1 0x00 0x7F; mkRange 2 0x8140 0xFEFE].

Definition mixed_width_map : PdfEncodingMap :=
  codespace_map mixed_width_limits mixed_width_ranges.

(** A one-byte map over the codes 0x41-0x43 in which 0x42 is unmapped. *)
Definition gap_limits : PdfEncodingLimits :=
  mkLimits 1 1 (mkCharCode 0x41 1) (mkCharCode 0x43 1).

Definition gap_ranges : list CodeSpaceRange :=
  [mkRange 1 0x41 0x41; mkRange 1 0x43 0x43].

Definition gap_map : PdfEncodingMap := codespace_map gap_limits gap_ranges.

(** Hexadecimal digits, for a concrete [Utls]. *)
Definition hex_digit (d : Z) : string :=
  String.substring (Z.to_nat d) 1 "0123456789ABCDEF".

Definition hex_byte (b : Z) : string :=
  hex_digit (to_uchar b / 16) +:+ hex_digit (to_uchar b mod 16).

(** A concrete [Utls] for examples; code points are taken in the Basic
    Multilingual Plane (one UTF-16 unit, two bytes) and char codes have
    width one. *)
Definition demo_utls : Utls :=
  mkUtls
    (fun cp => [to_uchar (cp / 256); to_uchar cp])
    hex_byte
    (fun c => "<" +:+ hex_byte (Code c) +:+ ">")
    (fun code => mkCharCode code 1).

(** A forward table in which code [c] holds code point [c], except that
    code 66 repeats the entry of code 65 and code 200 is unmapped. *)
Definition demo_table : list Z :=
  (fun c => if c =? 66 then 65 else if c =? 200 then 0 else c) <$> seqZ 0 256.

(** A forward table without repeated entries: code [c] holds [c + 32]. *)
Definition shifted_table : list Z := (fun c => c + 32) <$> seqZ 0 256.

(** *** Further members of the maps *)

(** Modelled from the spec: [enum class PdfEncodingMapType] is declared in
    a header that is not part of the sources at hand; the code tells the
    type CMap from the others, of which Simple is the one it names. *)
Inductive PdfEncodingMapType : Set :=
| Simple
| CMap
| OtherMapType.

(** Modelled from the spec: [PdfCID] is declared in a header that is not
    part of the sources at hand; the code assigns its members [Id] (an
    [unsigned]) and [Unit] (a char code), and [cid = { }] clears both. *)
Record PdfCID : Set := mkCID {
  Id : Z;
  Unit : PdfCharCode
}.

Definition PdfCID_null : PdfCID := mkCID 0 PdfCharCode_null.

(** The [while (curr != end)] loop of the branch of [TryGetNextCID] for a
    map that is no CMap: [Some (curr, code)] when it returns true. *)
Fixpoint TryGetNextCID_loop (limits : PdfEncodingLimits) (curr : list Z)
    (code i : Z) : option (list Z * Z) :=
  match curr with
  | [] => None
  | ch :: curr' =>
      let code := Z.lor (to_unsigned (Z.shiftl code 8)) (to_uchar ch) in
      if i =? MaxCodeSize limits then Some (curr', code)
      else TryGetNextCID_loop limits curr' code (to_uchar (i + 1))
  end.

(** [bool PdfEncodingMap::TryGetNextCID(string_view::iterator& it,
    const string_view::iterator& end, PdfCID& cid) const]; [type] is the
    member [m_Type] that [GetType()] returns.  The result holds the flag,
    the text from [it] on, and [cid].  In the second branch
    [PODOFO_ASSERT(i <= limits.MaxCodeSize)] is a precondition. *)
Definition TryGetNextCID (type : PdfEncodingMapType) (m : PdfEncodingMap)
    (it : list Z) (cid : PdfCID) : result (bool * list Z * PdfCID) :=
  match type with
  | CMap =>
      r ← tryGetNextCodePoints m it (Unit cid) [];
      if negb (next_found r)
         || negb (Z.of_nat (length (next_codePoints r)) =? 1)
      then Ok (false, next_it r, PdfCID_null)
      else Ok (true, next_it r,
               mkCID (to_unsigned (nth 0 (next_codePoints r) 0))
                     (next_codeUnit r))
  | _ =>
      limits ← GetLimits m;
      match TryGetNextCID_loop limits it 0 1 with
      | Some (curr, code) =>
          Ok (true, curr, mkCID code (mkCharCode code (MaxCodeSize limits)))
      | None => Ok (false, it, PdfCID_null)
      end
  end.

(** [bool PdfEncodingMap::TryGetNextCodePoints(string_view::iterator& it,
    const string_view::iterator& end, CodePointSpan& codePoints) const] *)
Definition TryGetNextCodePoints (m : PdfEncodingMap) (it : list Z)
    (codePoints : CodePointSpan) : result NextCodePoints :=
  tryGetNextCodePoints m it PdfCharCode_null codePoints.

(** [bool PdfEncodingMap::TryGetCIDId(const PdfCharCode& codeUnit,
    unsigned& cid) const] *)
Definition TryGetCIDId (m : PdfEncodingMap) (codeUnit : PdfCharCode) (cid : Z)
  : result (bool * Z) :=
  r ← tryGetCodePoints m codeUnit None [];
  if negb (fst r) || negb (Z.of_nat (length (snd r)) =? 1)
  then Ok (false, cid)
  else Ok (true, to_unsigned (nth 0 (snd r) 0)).

(** The number the bytes spell when the first byte is the most
    significant one. *)
Definition big_endian (bytes : list Z) : Z :=
  foldl (fun value ch => 256 * value + to_uchar ch) 0 bytes.

(** [PdfNullEncodingMap]: every virtual member it overrides raises
    InternalLogic; its type is CMap. *)
Definition PdfNullEncodingMap : PdfEncodingMap :=
  mkEncodingMap
    (Raise InternalLogic)
    base_HasLigaturesSupport
    (fun _ _ => Raise InternalLogic)
    base_tryGetCharCodeSpan
    (fun _ _ _ => Raise InternalLogic).

(** One turn of the loop of [CreateUnicodeToGIDMap]. *)
Definition CreateUnicodeToGIDMap_step (cpUnicodeTable : list Z)
    (codeToGidMap : gmap Z Z) (unicodeMap : gmap Z Z) (i : Z) : gmap Z Z :=
  let unicodeCp := table_at cpUnicodeTable i in
  if unicodeCp =? 0 then unicodeMap
  else
    match codeToGidMap !! i with
    | None => unicodeMap
    | Some gid => <[unicodeCp := gid]> unicodeMap
    end.

(** [void PdfBuiltInEncoding::CreateUnicodeToGIDMap(const
    unordered_map<unsigned, unsigned>& codeToGidMap,
    unordered_map<uint32_t, unsigned>& unicodeMap) const] *)
Definition CreateUnicodeToGIDMap (e : PdfBuiltInEncoding)
    (codeToGidMap unicodeMap : gmap Z Z) : gmap Z Z :=
  foldl (CreateUnicodeToGIDMap_step (GetToUnicodeTable e) codeToGidMap)
    unicodeMap (seqZ 0 256).

(** The highest code below [n] whose forward entry is [codePoint] and that
    [codeToGidMap] has. *)
Fixpoint highest_mapped_code (cpUnicodeTable : list Z)
    (codeToGidMap : gmap Z Z) (codePoint : Z) (n : nat) : option Z :=
  match n with
  | O => None
  | S k =>
      if (table_at cpUnicodeTable (Z.of_nat k) =? codePoint)
         && bool_decide (is_Some (codeToGidMap !! Z.of_nat k))
      then Some (Z.of_nat k)
      else highest_mapped_code cpUnicodeTable codeToGidMap codePoint k
  end.

(** The hex characters [AppendUTF16CodeTo] writes for one code point. *)
Definition utf16_hex (utls : Utls) (cp : Z) : string :=
  foldl (fun stream ch => stream +:+ WriteCharHexTo utls ch) ""
    (WriteUtf16BETo utls cp).

(** What [AppendCIDMappingEntries] uses and the sources at hand do not
    hold:
    - [FormatTo n]: the content of [temp] after [utls::FormatTo(temp, n)];
    - [TryGetGID cp]: the glyph index that
      [font.TryGetGID(cp, PdfGlyphAccess::FontProgram, gid)] stores in
      [gid] when it returns true, [None] when it returns false;
    - [deref codePoints]: the code point [*codePoints]. *)
Record FontProgram : Type := mkFontProgram {
  FormatTo : Z -> string;
  TryGetGID : Z -> option Z;
  deref : CodePointSpan -> Z
}.

Section CIDMappingEntries.
Context (utls : Utls) (font : FontProgram) (m : PdfEncodingMap).

(** [static void writeCIDMapping(OutputStream& stream, const PdfCharCode&
    unit, unsigned cid, charbuff& temp)] *)
Definition writeCIDMapping (stream : string) (unit : PdfCharCode) (cid : Z)
  : string :=
  stream +:+ WriteHexTo utls unit +:+ " " +:+ FormatTo font cid +:+ LF.

(** The first loop of [PdfEncodingMapOneByte::AppendCIDMappingEntries],
    which fills the vector [mappings]; it is given fuel like the loop of
    [AppendToUnicodeEntries]. *)
Fixpoint AppendCIDMappingEntries_loop (fuel : nat) (code lastCode : Z)
    (mappings : list (PdfCharCode * Z)) (codePoints : CodePointSpan)
  : option (result (list (PdfCharCode * Z))) :=
  match fuel with
  | O => None
  | S fuel =>
      if code <=? lastCode then
        let charCode := PdfCharCode_ctor utls code in
        match TryGetCodePoints m charCode codePoints with
        | Raise e => Some (Raise e)
        | Ok (false, codePoints') =>
            AppendCIDMappingEntries_loop fuel (to_unsigned (code + 1))
              lastCode mappings codePoints'
        | Ok (true, codePoints') =>
            match TryGetGID font (deref font codePoints') with
            | None =>
                AppendCIDMappingEntries_loop fuel (to_unsigned (code + 1))
                  lastCode mappings codePoints'
            | Some gid =>
                AppendCIDMappingEntries_loop fuel (to_unsigned (code + 1))
                  lastCode (mappings ++ [(charCode, gid)]) codePoints'
            end
        end
      else Some (Ok mappings)
  end.

(** [void PdfEncodingMapOneByte::AppendCIDMappingEntries(OutputStream&
    stream, const PdfFont& font, charbuff& temp) const] *)
Definition AppendCIDMappingEntries (fuel : nat) (stream : string)
  : option (result string) :=
  match GetLimits m with
  | Raise e => Some (Raise e)
  | Ok limits =>
      let code := Code (FirstChar limits) in
      let lastCode := Code (LastChar limits) in
      match AppendCIDMappingEntries_loop fuel code lastCode [] [] with
      | None => None
      | Some (Raise e) => Some (Raise e)
      | Some (Ok mappings) =>
          let stream := stream +:+ FormatTo font (Z.of_nat (length mappings)) in
          let stream := stream +:+ " begincidchar" +:+ LF in
          let stream :=
            foldl (fun stream mapping =>
                     writeCIDMapping stream (fst mapping) (snd mapping))
                  stream mappings in
          Some (Ok (stream +:+ "endcidchar" +:+ LF))
      end
  end.

(** The codes from [first] to [last] that [lookup] finds and whose code
    point has a glyph in the font program, each with that glyph. *)
Definition cid_entries (lookup : PdfCharCode -> option CodePointSpan)
    (first last : Z) : list (PdfCharCode * Z) :=
  omap (fun code =>
          match lookup (PdfCharCode_ctor utls code) with
          | Some codePoints =>
              (fun gid => (PdfCharCode_ctor utls code, gid))
                <$> TryGetGID font (deref font codePoints)
          | None => None
          end)
       (seqZ first (last - first + 1)).

(** The line of one entry. *)
Definition cid_line (mapping : PdfCharCode * Z) : string :=
  WriteHexTo utls (fst mapping) +:+ " " +:+ FormatTo font (snd mapping) +:+ LF.
End CIDMappingEntries.

(** A font program for examples: decimal digits for numbers below ten, a
    glyph for every code point but 0x43, the first code point of a
    span. *)
Definition demo_font : FontProgram :=
  mkFontProgram
    (fun n => String.substring (Z.to_nat n) 1 "0123456789")
    (fun cp => if cp =? 0x43 then None else Some (cp - 0x40))
    (fun codePoints => nth 0 codePoints 0).


End EncodingMap.

(** ** PdfSigningContext.h *)

Module SigningContext.

(** Modelled from the spec: [PdfReference] is declared in a header that is
    not part of the sources at hand.  It holds the object number (32 bits,
    unsigned) and the generation number (16 bits, unsigned) of an indirect
    object, and two references are equal when both numbers are. *)
Record PdfReference : Set := mkReference {
  ObjectNumber : Z;
  GenerationNumber : Z
}.

Definition PdfReference_eq (a b : PdfReference) : bool :=
  (ObjectNumber a =? ObjectNumber b)
  && (GenerationNumber a =? GenerationNumber b).

Definition PdfReference_ne (a b : PdfReference) : bool :=
  negb (PdfReference_eq a b).

Record PdfSignerId : Set := mkSignerId {
  m_SignatureRef : PdfReference;
  m_SignerIndex : Z
}.

Definition GetSignatureRef (id : PdfSignerId) : PdfReference :=
  m_SignatureRef id.
Definition GetSignerIndex (id : PdfSignerId) : Z := m_SignerIndex id.

(** [bool PdfSignerId::operator==(const PdfSignerId& rhs) const] *)
Definition PdfSignerId_eq (lhs rhs : PdfSignerId) : bool :=
  PdfReference_eq (m_SignatureRef lhs) (m_SignatureRef rhs)
  && (m_SignerIndex lhs =? m_SignerIndex rhs).

(** [bool PdfSignerId::operator!=(const PdfSignerId& rhs) const] *)
Definition PdfSignerId_ne (lhs rhs : PdfSignerId) : bool :=
  PdfReference_ne (m_SignatureRef lhs) (m_SignatureRef rhs)
  || negb (m_SignerIndex lhs =? m_SignerIndex rhs).

(** [std::size_t std::hash<PdfSignerId>::operator()(const PdfSignerId& id)].
    The generation number is promoted to [int] before the shift and the
    result meets the 32-bit object number, so that part is computed
    modulo 2^32; the signer index is widened to [size_t] before its
    shift. *)
Definition hash (id : PdfSignerId) : Z :=
  let low :=
    Z.lxor (ObjectNumber (GetSignatureRef id))
           (to_unsigned (Z.shiftl (GenerationNumber (GetSignatureRef id)) 16)) in
  Z.lxor (to_size_t low)
         (to_size_t (Z.shiftl (to_size_t (GetSignerIndex id)) 24)).

(** The types of the three numbers. *)
Definition wf_reference (r : PdfReference) : Prop :=
  0 <= ObjectNumber r < 2 ^ 32 /\ 0 <= GenerationNumber r < 2 ^ 16.

Definition wf_signer_id (id : PdfSignerId) : Prop :=
  wf_reference (m_SignatureRef id) /\ 0 <= m_SignerIndex id < 2 ^ 32.

End SigningContext.

(** * Properties *)

(** ** Stream devices *)

Section StreamDeviceFacts.
Import StreamDevice.

(** C1, as the code has it.  For a device of length [devlen] at position
    [curpos <= devlen]: from Begin a negative offset fails with IOError, an
    offset beyond [devlen] with ValueOutOfRange, and any other offset is
    the result; from Current the offset 0 gives [curpos], an offset beyond
    [devlen - curpos] or below [- curpos] fails with ValueOutOfRange, and
    any other offset gives [curpos + offset]; from End a positive offset
    fails with IOError, an offset below [- devlen] with ValueOutOfRange,
    and any other offset gives [devlen + offset]; a direction outside the
    enumeration fails with InvalidEnumValue. *)
Theorem SeekPosition_cases (curpos devlen offset : Z) (direction : SeekDirection) :
  is_size_t devlen -> 0 <= curpos <= devlen -> is_ssize_t offset ->
  let r := SeekPosition curpos devlen offset direction in
  (direction = SeekBegin ->
     (offset < 0 -> r = Raise IOError)
     /\ (devlen < offset -> r = Raise ValueOutOfRange)
     /\ (0 <= offset <= devlen -> r = Ok offset))
  /\ (direction = SeekCurrent ->
     (offset = 0 -> r = Ok curpos)
     /\ (devlen - curpos < offset -> r = Raise ValueOutOfRange)
     /\ (curpos < - offset -> r = Raise ValueOutOfRange)
     /\ (- curpos <= offset <= devlen - curpos -> r = Ok (curpos + offset)))
  /\ (direction = SeekEnd ->
     (0 < offset -> r = Raise IOError)
     /\ (devlen < - offset -> r = Raise ValueOutOfRange)
     /\ (- devlen <= offset <= 0 -> r = Ok (devlen + offset)))
  /\ (direction = SeekOutOfSet -> r = Raise InvalidEnumValue).
Proof.
  intros Hlen Hpos Hoff r. subst r.
  split; [| split; [| split]]; intros ->; cbn [SeekPosition];
    repeat apply conj; try intros Hcase;
    zbool; try reflexivity; try lia;
    try (exfalso; wrap_lia); try (f_equal; wrap_lia).
Qed.

(** C1 as stated does not hold: from Begin, the offset -1 on a device of
    length 10 fails with IOError, not with ValueOutOfRange. *)
Lemma SeekPosition_begin_negative_is_IOError :
  SeekPosition 0 10 (-1) SeekBegin = Raise IOError
  /\ SeekPosition 0 10 (-1) SeekBegin <> Raise ValueOutOfRange.
Proof. split; [reflexivity | discriminate]. Qed.

Lemma SeekPosition_cases_witness :
  is_size_t 10 /\ 0 <= 3 <= 10 /\ is_ssize_t (-2)
  /\ SeekPosition 3 10 (-2) SeekCurrent = Ok 1
  /\ SeekPosition 3 10 (-2) SeekEnd = Ok 8
  /\ SeekPosition 3 10 (-2) SeekBegin = Raise IOError.
Proof.
  assert (Hlen : is_size_t 10) by (unfold is_size_t, SIZE_MOD; lia).
  assert (Hpos : 0 <= 3 <= 10) by lia.
  assert (Hoff : is_ssize_t (-2)) by (unfold is_ssize_t, SSIZE_MIN, SSIZE_MAX; lia).
  destruct (SeekPosition_cases 3 10 (-2) SeekCurrent Hlen Hpos Hoff)
    as (_ & HCurrent & _).
  destruct (SeekPosition_cases 3 10 (-2) SeekEnd Hlen Hpos Hoff)
    as (_ & _ & HEnd & _).
  destruct (SeekPosition_cases 3 10 (-2) SeekBegin Hlen Hpos Hoff)
    as (HBegin & _).
  refine (conj Hlen (conj Hpos (conj Hoff (conj _ (conj _ _))))).
  - apply (HCurrent eq_refl). lia.
  - apply (HEnd eq_refl). lia.
  - apply (HBegin eq_refl). lia.
Defined.

(** C6.  A span device of length [L] at position [P <= L] that is asked to
    write [n] bytes raises ValueOutOfRange and stays as it is when
    [P + n > L]; when [n = L - P] the write succeeds and leaves the device
    at position [L], with the same length, at end of stream.  [L] and [n]
    are sizes of buffers in memory. *)
Theorem span_writeBuffer_bounds (d : SpanStreamDevice) (buffer : list Z) :
  let L := m_Length d in
  let P := m_Position d in
  let n := Z.of_nat (length buffer) in
  is_object_size L -> is_object_size n -> 0 <= P <= L ->
  (P + n > L -> span_writeBuffer d buffer = (Raise ValueOutOfRange, d))
  /\ (n = L - P ->
      exists d', span_writeBuffer d buffer = (Ok tt, d')
                 /\ m_Position d' = L /\ m_Length d' = L
                 /\ span_Eof d' = true).
Proof.
  intros L P n HL Hn HP. subst L P n. unfold is_object_size in *.
  unfold span_writeBuffer. split; intros Hcase.
  - zbool; [reflexivity | exfalso; wrap_lia].
  - zbool; [exfalso; wrap_lia |].
    eexists. split; [reflexivity |]. unfold span_Eof. cbn.
    assert (to_size_t (m_Position d + Z.of_nat (length buffer)) = m_Length d)
      as -> by wrap_lia.
    repeat split. apply Z.eqb_refl.
Qed.

Lemma span_writeBuffer_bounds_witness :
  let d := mkSpan [0; 0; 0; 0] 4 1 in
  is_object_size 4 /\ is_object_size 3 /\ 0 <= 1 <= 4
  /\ span_writeBuffer d [7; 8; 9; 10] = (Raise ValueOutOfRange, d)
  /\ exists d', span_writeBuffer d [7; 8; 9] = (Ok tt, d')
                /\ m_Position d' = 4 /\ m_Length d' = 4
                /\ span_Eof d' = true.
Proof.
  intros d.
  assert (H4 : is_object_size 4) by (unfold is_object_size, SSIZE_MAX; lia).
  assert (H3 : is_object_size 3) by (unfold is_object_size, SSIZE_MAX; lia).
  assert (HP : 0 <= 1 <= 4) by lia.
  refine (conj H4 (conj H3 (conj HP (conj _ _)))).
  - apply (span_writeBuffer_bounds d [7; 8; 9; 10]); cbn; try assumption; lia.
  - apply (span_writeBuffer_bounds d [7; 8; 9]); cbn; try assumption; lia.
Defined.

(** C8.  [readChar] on the null device always gives the null character and
    [false]; below the end it moves the position one further, at the end
    it leaves the device alone.  [peek] gives the null character too, and
    [true] exactly when the position differs from the length. *)
Theorem null_readChar_always_false (d : NullStreamDevice) :
  fst (null_readChar d) = (0, false)
  /\ (is_size_t (null_Length d) ->
      0 <= null_Position d < null_Length d ->
      snd (null_readChar d) = mkNull (null_Length d) (null_Position d + 1))
  /\ (null_Position d = null_Length d -> snd (null_readChar d) = d)
  /\ fst (null_peek d) = 0
  /\ (snd (null_peek d) = true <-> null_Position d <> null_Length d).
Proof.
  unfold null_readChar, null_peek. split; [| split; [| split; [| split]]].
  - zbool; reflexivity.
  - intros Hlen Hpos. zbool; [lia |]. cbn. f_equal. wrap_lia.
  - intros Heq. zbool; [reflexivity | contradiction].
  - reflexivity.
  - cbn. zbool; cbn; split; intros; congruence.
Qed.

Lemma null_readChar_always_false_witness :
  let d := mkNull 5 2 in
  is_size_t 5 /\ 0 <= 2 < 5
  /\ null_readChar d = ((0, false), mkNull 5 3)
  /\ null_readChar (mkNull 5 5) = ((0, false), mkNull 5 5)
  /\ snd (null_peek d) = true.
Proof.
  intros d.
  assert (H5 : is_size_t 5) by (unfold is_size_t, SIZE_MOD; lia).
  assert (H2 : 0 <= 2 < 5) by lia.
  destruct (null_readChar_always_false d) as (Hout & Hadv & _ & _ & Hpeek).
  destruct (null_readChar_always_false (mkNull 5 5)) as (Hout' & _ & Hstay & _).
  refine (conj H5 (conj H2 (conj _ (conj _ _)))).
  - rewrite (surjective_pairing (null_readChar d)), Hout, (Hadv H5 H2).
    reflexivity.
  - rewrite (surjective_pairing (null_readChar (mkNull 5 5))), Hout',
      (Hstay eq_refl). reflexivity.
  - apply Hpeek. cbn. lia.
Defined.

(** *** createFile *)

(** C5.  On a host whose [fopen] follows ISO C for the mode r:
    CreateNew on a path that exists fails with IOError whatever the
    access; Open with Read on a path that does not exist fails with
    IOError; OpenOrCreate with ReadWrite leaves the switch with r+ when
    the file exists and with w+ when it does not, and that mode (with the
    platform suffix) is what [fopen] is called with; every other mode
    than Open fails with IOError when combined with Read. *)
Theorem createFile_mode_matrix {FILE : Type} (host : Host FILE) :
  fopen_r_needs_file host ->
  (forall filepath access,
     fs_exists host filepath = true ->
     createFile host filepath CreateNew access = Raise IOError)
  /\ (forall filepath,
       fs_exists host filepath = false ->
       createFile host filepath Open Read = Raise IOError)
  /\ (forall filepath,
       createFile_cmode host filepath OpenOrCreate ReadWrite
       = Ok (if fs_exists host filepath then "r+" else "w+")
       /\ createFile host filepath OpenOrCreate ReadWrite
         = match utls_fopen host filepath
                   (platform_cmode host
                      (if fs_exists host filepath then "r+" else "w+")) with
           | None => Raise IOError
           | Some stream => Ok stream
           end)
  /\ (forall filepath mode,
       In mode modes_other_than_Open ->
       createFile host filepath mode Read = Raise IOError).
Proof.
  intros Hfopen. split; [| split; [| split]].
  - intros filepath access Hexists. unfold createFile; cbn.
    rewrite Hexists. destruct (access =? Read); reflexivity.
  - intros filepath Hmissing. unfold createFile, createFile_cmode.
    rewrite Hmissing. change (Z.land Read Write =? 0) with true. cbn.
    now rewrite (Hfopen filepath Hmissing).
  - intros filepath. unfold createFile; cbn. split; reflexivity.
  - intros filepath mode Hmode. unfold modes_other_than_Open in Hmode.
    cbn in Hmode.
    destruct Hmode as [<- | [<- | [<- | [<- | [<- | []]]]]]; reflexivity.
Qed.

Lemma createFile_mode_matrix_witness :
  let host := list_host ["a.pdf"] false in
  fopen_r_needs_file host
  /\ createFile host "a.pdf" CreateNew Write = Raise IOError
  /\ createFile host "b.pdf" Open Read = Raise IOError
  /\ createFile host "a.pdf" OpenOrCreate ReadWrite = Ok "r+"
  /\ createFile host "b.pdf" OpenOrCreate ReadWrite = Ok "w+"
  /\ createFile host "a.pdf" Truncate Read = Raise IOError.
Proof.
  intros host.
  assert (Hhost : fopen_r_needs_file host).
  { intros filepath Hmissing. cbn in *. now rewrite Hmissing. }
  destruct (createFile_mode_matrix host Hhost) as (HNew & HOpen & HOoC & HRead).
  refine (conj Hhost (conj _ (conj _ (conj _ (conj _ _))))).
  - apply HNew. reflexivity.
  - apply HOpen. reflexivity.
  - rewrite (proj2 (HOoC "a.pdf")). reflexivity.
  - rewrite (proj2 (HOoC "b.pdf")). reflexivity.
  - apply HRead. cbn. tauto.
Defined.

End StreamDeviceFacts.

(** ** Encoding maps *)

Section EncodingMapFacts.
Import EncodingMap.

(** C7.  On a span of code points [TryGetCharCode] fails and clears the
    char code when the span is empty; it does the same on a span of two or
    more code points when the map has no ligature support; and on a span
    of one code point it is the single code point lookup, with or without
    ligature support. *)
Theorem TryGetCharCode_span_cases (m : PdfEncodingMap) (codeUnit : PdfCharCode) :
  TryGetCharCode_span m [] codeUnit = Ok (false, PdfCharCode_null)
  /\ (forall codePoints,
       (2 <= length codePoints)%nat ->
       HasLigaturesSupport m = false ->
       TryGetCharCode_span m codePoints codeUnit = Ok (false, PdfCharCode_null))
  /\ (forall codePoint,
       TryGetCharCode_span m [codePoint] codeUnit
       = tryGetCharCode m codePoint codeUnit).
Proof.
  unfold TryGetCharCode_span. split; [| split].
  - reflexivity.
  - intros codePoints Hsize Hlig. rewrite Hlig.
    zbool; [lia | | ]; cbn; reflexivity.
  - intros codePoint. reflexivity.
Qed.

Lemma TryGetCharCode_span_cases_witness :
  (2 <= length [65; 66])%nat
  /\ HasLigaturesSupport mixed_width_map = false
  /\ TryGetCharCode_span mixed_width_map [65; 66] (mkCharCode 9 9)
     = Ok (false, PdfCharCode_null)
  /\ TryGetCharCode_span mixed_width_map [65] (mkCharCode 9 9)
     = Ok (true, mkCharCode 65 1).
Proof.
  assert (Hsize : (2 <= length [65; 66])%nat) by (cbn; lia).
  assert (Hlig : HasLigaturesSupport mixed_width_map = false) by reflexivity.
  destruct (TryGetCharCode_span_cases mixed_width_map (mkCharCode 9 9))
    as (_ & Hmany & Hone).
  refine (conj Hsize (conj Hlig (conj _ _))).
  - apply Hmany; assumption.
  - rewrite Hone. reflexivity.
Defined.

(** C10.  [tryGetCodePoints] of a built-in encoding returns false for a
    char code of 256 or more and true for a char code below 256, where it
    yields the single code point of the forward table, also when that is
    U+0000. *)
Theorem builtin_tryGetCodePoints_range (e : PdfBuiltInEncoding)
    (codeUnit : PdfCharCode) (cidId : option Z) (codePoints : CodePointSpan) :
  let r := builtin_tryGetCodePoints e codeUnit cidId codePoints in
  (256 <= Code codeUnit -> fst r = false)
  /\ (Code codeUnit < 256 ->
      r = (true, [table_at (GetToUnicodeTable e) (Code codeUnit)]))
  /\ (Code codeUnit < 256 ->
      table_at (GetToUnicodeTable e) (Code codeUnit) = 0 ->
      r = (true, [0])).
Proof.
  unfold builtin_tryGetCodePoints. cbn. split; [| split].
  - intros Hcode. zbool; [reflexivity | lia].
  - intros Hcode. zbool; [lia | reflexivity].
  - intros Hcode Hnull. zbool; [lia |]. now rewrite Hnull.
Qed.

Lemma builtin_tryGetCodePoints_range_witness :
  let e := PdfBuiltInEncoding_new demo_table in
  256 <= 256 /\ 200 < 256 /\ table_at demo_table 200 = 0
  /\ fst (builtin_tryGetCodePoints e (mkCharCode 256 2) None [1]) = false
  /\ builtin_tryGetCodePoints e (mkCharCode 200 1) None [1] = (true, [0]).
Proof.
  intros e.
  assert (H256 : 256 <= 256) by lia.
  assert (H200 : 200 < 256) by lia.
  assert (Hnull : table_at demo_table 200 = 0) by reflexivity.
  refine (conj H256 (conj H200 (conj Hnull (conj _ _)))).
  - apply (builtin_tryGetCodePoints_range e (mkCharCode 256 2) None [1]).
    exact H256.
  - apply (builtin_tryGetCodePoints_range e (mkCharCode 200 1) None [1]).
    + exact H200.
    + exact Hnull.
Defined.

(** *** The reverse table of a built-in encoding *)

Section ReverseTable.
Variable cpUnicodeTable : list Z.

Lemma highest_code_Some codePoint n c :
  highest_code cpUnicodeTable codePoint n = Some c ->
  0 <= c < Z.of_nat n
  /\ table_at cpUnicodeTable c = codePoint
  /\ forall j, c < j < Z.of_nat n -> table_at cpUnicodeTable j <> codePoint.
Proof.
  induction n as [| k IH]; [discriminate |].
  cbn [highest_code].
  destruct (Z.eqb_spec (table_at cpUnicodeTable (Z.of_nat k)) codePoint)
    as [Heq | Hne].
  - intros [= <-]. split; [lia | split; [assumption | lia]].
  - intros Hc. destruct (IH Hc) as (Hrange & Hat & Habove).
    split; [lia | split; [assumption |]].
    intros j Hj. destruct (decide (j = Z.of_nat k)) as [-> | Hjk].
    + assumption.
    + apply Habove. lia.
Qed.

Lemma highest_code_above codePoint n c :
  0 <= c < Z.of_nat n ->
  table_at cpUnicodeTable c = codePoint ->
  exists c', highest_code cpUnicodeTable codePoint n = Some c' /\ c <= c'.
Proof.
  induction n as [| k IH]; [lia |].
  intros Hc Hat. cbn [highest_code].
  destruct (Z.eqb_spec (table_at cpUnicodeTable (Z.of_nat k)) codePoint)
    as [Heq | Hne].
  - exists (Z.of_nat k). split; [reflexivity | lia].
  - apply IH; [| assumption].
    destruct (decide (c = Z.of_nat k)) as [-> | Hck]; [contradiction | lia].
Qed.

(** Running the loop of [initEncodingTable] over the codes below [n]
    leaves, under each code point, the highest of these codes that holds
    it, and otherwise what was there before. *)
Lemma lookup_initEncodingTable_loop (table : gmap Z Z) codePoint n :
  foldl (initEncodingTable_step cpUnicodeTable) table (seqZ 0 (Z.of_nat n))
    !! codePoint
  = match highest_code cpUnicodeTable codePoint n with
    | Some c => Some (to_uchar c)
    | None => table !! codePoint
    end.
Proof.
  induction n as [| k IH]; [reflexivity |].
  rewrite seqZ_S, foldl_snoc. cbn [highest_code].
  unfold initEncodingTable_step at 1. rewrite Z.add_0_l.
  destruct (Z.eqb_spec (table_at cpUnicodeTable (Z.of_nat k)) codePoint)
    as [Heq | Hne].
  - rewrite Heq. apply lookup_insert_eq.
  - rewrite lookup_insert_ne by assumption. exact IH.
Qed.

Lemma lookup_reverse_table codePoint :
  reverse_table cpUnicodeTable !! codePoint
  = to_uchar <$> highest_code cpUnicodeTable codePoint 256.
Proof.
  unfold reverse_table.
  rewrite (lookup_initEncodingTable_loop ∅ codePoint 256).
  destruct (highest_code cpUnicodeTable codePoint 256); [reflexivity |].
  apply lookup_empty.
Qed.

Lemma reverse_table_nonempty : reverse_table cpUnicodeTable <> ∅.
Proof.
  intros Hempty.
  destruct (highest_code_above (table_at cpUnicodeTable 0) 256 0)
    as (c & Hc & _); [lia | reflexivity |].
  pose proof (lookup_reverse_table (table_at cpUnicodeTable 0)) as Hlook.
  rewrite Hempty, Hc, lookup_empty in Hlook. discriminate.
Qed.
End ReverseTable.

(** Whatever the state of the encoding, after [initEncodingTable] the
    member holds the reverse table of the forward table. *)
Lemma initEncodingTable_builds (e : PdfBuiltInEncoding) :
  encoding_ok e ->
  initEncodingTable e
  = mkBuiltIn (GetToUnicodeTable e) (reverse_table (GetToUnicodeTable e)).
Proof.
  intros [Hempty | Hbuilt]; unfold initEncodingTable.
  - rewrite Hempty. rewrite bool_decide_eq_true_2 by reflexivity. reflexivity.
  - rewrite bool_decide_eq_false_2.
    + destruct e as [tbl m]. cbn in *. now rewrite Hbuilt.
    + rewrite Hbuilt. apply reverse_table_nonempty.
Qed.

Lemma encoding_ok_new (cpUnicodeTable : list Z) :
  encoding_ok (PdfBuiltInEncoding_new cpUnicodeTable).
Proof. left. reflexivity. Qed.

(** [tryGetCharCode] finds a code point under the highest code that holds
    it in the forward table, whatever the code point. *)
Lemma builtin_tryGetCharCode_lookup (e : PdfBuiltInEncoding) (codePoint : Z) :
  encoding_ok e ->
  builtin_tryGetCharCode e codePoint
  = (match highest_code (GetToUnicodeTable e) codePoint 256 with
     | Some c => (true, mkCharCode c 1)
     | None => (false, PdfCharCode_null)
     end,
     mkBuiltIn (GetToUnicodeTable e) (reverse_table (GetToUnicodeTable e))).
Proof.
  intros Hok. unfold builtin_tryGetCharCode.
  rewrite (initEncodingTable_builds e Hok). cbn [m_EncodingTable].
  rewrite lookup_reverse_table.
  destruct (highest_code (GetToUnicodeTable e) codePoint 256) as [c |] eqn:Hc;
    [| reflexivity].
  cbn. apply highest_code_Some in Hc as (Hrange & _ & _).
  change (Z.of_nat 256) with 256 in Hrange.
  do 3 f_equal. wrap_lia.
Qed.

Lemma encoding_ok_tryGetCharCode (e : PdfBuiltInEncoding) (codePoint : Z) :
  encoding_ok e -> encoding_ok (snd (builtin_tryGetCharCode e codePoint)).
Proof.
  intros Hok. rewrite (builtin_tryGetCharCode_lookup e codePoint Hok).
  right. reflexivity.
Qed.

(** C2, as the code has it.  For a byte code [c] whose forward entry is
    not null, [tryGetCharCode] applied to that entry returns true with the
    highest byte code that holds the same entry, which is [c] itself when
    no higher code repeats it; the call leaves the reverse table built
    from the forward table. *)
Theorem builtin_tryGetCharCode_highest (e : PdfBuiltInEncoding) (c : Z) :
  let tbl := GetToUnicodeTable e in
  let r := builtin_tryGetCharCode e (table_at tbl c) in
  encoding_ok e -> 0 <= c < 256 -> table_at tbl c <> 0 ->
  (exists c',
     fst r = (true, mkCharCode c' 1)
     /\ c <= c' < 256
     /\ table_at tbl c' = table_at tbl c
     /\ forall j, c' < j < 256 -> table_at tbl j <> table_at tbl c)
  /\ ((forall j, c < j < 256 -> table_at tbl j <> table_at tbl c) ->
      fst r = (true, mkCharCode c 1))
  /\ m_EncodingTable (snd r) = reverse_table tbl
  /\ encoding_ok (snd r).
Proof.
  intros tbl r Hok Hc _. subst r.
  rewrite (builtin_tryGetCharCode_lookup e _ Hok). fold tbl. cbn [fst snd].
  destruct (highest_code_above tbl (table_at tbl c) 256 c)
    as (c' & Hhigh & Hle); [exact Hc | reflexivity |].
  rewrite Hhigh.
  destruct (highest_code_Some tbl _ _ _ Hhigh) as (Hrange & Hat & Habove).
  change (Z.of_nat 256) with 256 in *.
  split; [| split; [| split]].
  - exists c'. split; [reflexivity |]. split; [lia |]. split; assumption.
  - intros Hunique. destruct (decide (c' = c)) as [-> | Hne]; [reflexivity |].
    exfalso. apply (Hunique c'); [lia | assumption].
  - reflexivity.
  - right. reflexivity.
Qed.

(** C2 as stated does not hold.  In [demo_table] code 65 holds the
    non-null code point 65, yet looking that code point up returns code
    66, which repeats it; and code 200 holds the null code point, yet the
    reverse table has the null code point and returns code 200 for it. *)
Lemma builtin_tryGetCharCode_not_inverse :
  let e := PdfBuiltInEncoding_new demo_table in
  (table_at demo_table 65 = 65
   /\ fst (builtin_tryGetCharCode e 65) = (true, mkCharCode 66 1))
  /\ (table_at demo_table 200 = 0
      /\ fst (builtin_tryGetCharCode e 0) = (true, mkCharCode 200 1)
      /\ m_EncodingTable (snd (builtin_tryGetCharCode e 0)) !! 0 = Some 200).
Proof.
  intros e.
  assert (Hok : encoding_ok e) by (left; reflexivity).
  rewrite (builtin_tryGetCharCode_lookup e 65 Hok).
  rewrite (builtin_tryGetCharCode_lookup e 0 Hok).
  cbn [fst snd m_EncodingTable]. rewrite lookup_reverse_table.
  repeat split; vm_compute; reflexivity.
Qed.

Lemma builtin_tryGetCharCode_highest_witness :
  let e := PdfBuiltInEncoding_new shifted_table in
  encoding_ok e /\ 0 <= 65 < 256 /\ table_at shifted_table 65 <> 0
  /\ (forall j, 65 < j < 256 -> table_at shifted_table j <> table_at shifted_table 65)
  /\ fst (builtin_tryGetCharCode e 97) = (true, mkCharCode 65 1).
Proof.
  intros e.
  assert (Hok : encoding_ok e) by (left; reflexivity).
  assert (Hc : 0 <= 65 < 256) by lia.
  assert (Hnn : table_at shifted_table 65 <> 0) by discriminate.
  assert (Hunique : forall j, 65 < j < 256 ->
            table_at shifted_table j <> table_at shifted_table 65).
  { intros j Hj. unfold table_at, shifted_table.
    rewrite !(nth_lookup _ _ 0), !list_lookup_fmap.
    rewrite !lookup_seqZ_lt by lia. cbn. lia. }
  refine (conj Hok (conj Hc (conj Hnn (conj Hunique _)))).
  apply (builtin_tryGetCharCode_highest e 65 Hok Hc Hnn). exact Hunique.
Defined.

(** *** Greedy decoding *)

Lemma accumulate_snoc bytes ch :
  accumulate (bytes ++ [ch])
  = Z.lor (to_unsigned (Z.shiftl (accumulate bytes) 8)) (to_uchar ch).
Proof. unfold accumulate. now rewrite foldl_snoc. Qed.

Lemma drop_cons_inv {A} (text : list A) n ch curr :
  drop n text = ch :: curr ->
  text !! n = Some ch /\ drop (S n) text = curr /\ (n < length text)%nat.
Proof.
  intros Hdrop.
  assert (Hat : text !! n = Some ch).
  { rewrite <- (Nat.add_0_r n), <- lookup_drop, Hdrop. reflexivity. }
  split; [assumption |]. split.
  - rewrite (drop_S _ _ _ Hat) in Hdrop. now injection Hdrop.
  - now apply lookup_lt_Some in Hat.
Qed.

Section Decoding.
Context (m : PdfEncodingMap) (limits : PdfEncodingLimits).
Context (lookup : PdfCharCode -> option CodePointSpan).
Context (text : list Z).
Hypothesis Hmax : 0 <= MaxCodeSize limits < 255.
Hypothesis Hlookup : lookup_of m lookup.

(** The loop, entered with [n] bytes read and none of the codes tried so
    far found. *)
Lemma tryGetNextCodePoints_loop_decoded curr :
  forall (n : nat) codeUnit codePoints,
    drop n text = curr ->
    Z.of_nat n <= MaxCodeSize limits ->
    (forall j : nat,
       (1 <= j <= n)%nat -> MinCodeSize limits <= Z.of_nat j ->
       lookup (code_after text j) = None) ->
    exists r,
      tryGetNextCodePoints_loop m limits text curr
        (accumulate (take n text)) (Z.of_nat n + 1) codeUnit codePoints
      = Ok r
      /\ decoded limits lookup text r.
Proof.
  induction curr as [| ch curr' IH]; intros n codeUnit codePoints Hdrop Hn Hnone.
  - eexists. split; [reflexivity |]. split; [discriminate |].
    intros _. split; [reflexivity |]. intros j Hj HjM.
    apply Hnone; [| lia].
    apply drop_nil_inv in Hdrop. lia.
  - destruct (drop_cons_inv _ _ _ _ Hdrop) as (Hat & Hrest & Hlt).
    cbn [tryGetNextCodePoints_loop].
    destruct (Z.ltb_spec (MaxCodeSize limits) (Z.of_nat n + 1)) as [Hover | Hfits];
      rewrite Z.gtb_ltb;
      [ rewrite (proj2 (Z.ltb_lt _ _) Hover)
      | rewrite (proj2 (Z.ltb_ge _ _) Hfits) ].
    + eexists. split; [reflexivity |]. split; [discriminate |].
      intros _. split; [reflexivity |]. intros j Hj HjM.
      apply Hnone; lia.
    + rewrite <- accumulate_snoc, <- (take_S_r _ _ _ Hat).
      replace (to_uchar (Z.of_nat n + 1 + 1)) with (Z.of_nat (S n) + 1)
        by wrap_lia.
      replace (mkCharCode (accumulate (take (S n) text)) (Z.of_nat n + 1))
        with (code_after text (S n))
        by (unfold code_after; f_equal; lia).
      assert (Hstep : lookup (code_after text (S n)) = None ->
                forall j : nat,
                  (1 <= j <= S n)%nat -> MinCodeSize limits <= Z.of_nat j ->
                  lookup (code_after text j) = None).
      { intros Hmiss j Hj HjM.
        destruct (decide (j = S n)) as [-> | Hne]; [assumption |].
        apply Hnone; [lia | assumption]. }
      destruct (Z.ltb_spec (Z.of_nat n + 1) (MinCodeSize limits)) as [Hshort | Hlong].
      * apply IH; [assumption | lia |].
        intros j Hj HjM.
        destruct (decide (j = S n)) as [-> | Hne]; [lia |].
        apply Hnone; [lia | assumption].
      * pose proof (Hlookup (code_after text (S n)) codePoints) as Hcall.
        destruct (lookup (code_after text (S n))) as [found |] eqn:Hfound.
        -- rewrite Hcall. eexists. split; [reflexivity |].
           split; [| discriminate]. intros _. exists (S n). cbn.
           repeat apply conj; try lia; try reflexivity; try assumption;
             [now symmetry |].
           intros j Hj HjM. apply Hnone; [lia | assumption].
        -- destruct Hcall as (codePoints' & ->).
           apply IH; [assumption | lia | auto].
Qed.
End Decoding.

Lemma codespace_lookup_of limits ranges :
  lookup_of (codespace_map limits ranges) (codespace_lookup ranges).
Proof.
  intros codeUnit codePoints. cbn.
  destruct (codespace_lookup ranges codeUnit);
    [reflexivity | eexists; reflexivity].
Qed.

(** C4.  [tryGetNextCodePoints] reads the text byte by byte; with [k]
    bytes read and [k] at least MinCodeSize it looks the code of these
    [k] bytes up, and at the first [k] where the lookup succeeds it
    returns true with that code, its code points, and the iterator moved
    past the [k] bytes.  It returns false, with the iterator where it
    was, when no [k] up to MaxCodeSize and up to the length of the text
    has a match.  (MaxCodeSize is below 255, so that the byte counter, an
    [unsigned char], does not wrap.)  With one-byte codes 0x00-0x7F and two-byte codes
    0x8140-0xFEFE, a text that starts with 0x81 0x40 decodes as the
    two-byte code 0x8140 and the iterator moves past both bytes. *)
Theorem tryGetNextCodePoints_greedy :
  (forall m limits lookup text codeUnit codePoints,
     GetLimits m = Ok limits ->
     0 <= MaxCodeSize limits < 255 ->
     lookup_of m lookup ->
     exists r,
       tryGetNextCodePoints m text codeUnit codePoints = Ok r
       /\ decoded limits lookup text r)
  /\ (forall rest codeUnit codePoints,
       tryGetNextCodePoints mixed_width_map (0x81 :: 0x40 :: rest)
         codeUnit codePoints
       = Ok (mkNext true rest (mkCharCode 0x8140 2) [0x8140])).
Proof.
  split.
  - intros m limits lookup text codeUnit codePoints Hlimits Hmax Hlookup.
    unfold tryGetNextCodePoints. rewrite Hlimits. cbn [mbind result_bind].
    apply (tryGetNextCodePoints_loop_decoded m limits lookup text Hmax Hlookup
             text 0%nat codeUnit codePoints).
    + reflexivity.
    + lia.
    + intros j Hj. lia.
  - intros rest codeUnit codePoints. reflexivity.
Qed.

Lemma tryGetNextCodePoints_greedy_witness :
  GetLimits mixed_width_map = Ok mixed_width_limits
  /\ 0 <= MaxCodeSize mixed_width_limits < 255
  /\ exists r,
       tryGetNextCodePoints mixed_width_map [0x81; 0x40; 0x41]
         PdfCharCode_null [] = Ok r
       /\ decoded mixed_width_limits (codespace_lookup mixed_width_ranges)
            [0x81; 0x40; 0x41] r.
Proof.
  assert (Hlimits : GetLimits mixed_width_map = Ok mixed_width_limits)
    by reflexivity.
  assert (Hmax : 0 <= MaxCodeSize mixed_width_limits < 255) by (cbn; lia).
  refine (conj Hlimits (conj Hmax _)).
  exact (proj1 tryGetNextCodePoints_greedy mixed_width_map mixed_width_limits
           (codespace_lookup mixed_width_ranges) [0x81; 0x40; 0x41]
           PdfCharCode_null [] Hlimits Hmax
           (codespace_lookup_of mixed_width_limits mixed_width_ranges)).
Defined.

(** *** ToUnicode entries of a one-byte map *)

Lemma string_app_assoc (a b c : string) : (a +:+ b) +:+ c = a +:+ (b +:+ c).
Proof.
  induction a as [| ch a IH]; [reflexivity |].
  change (String ch ((a +:+ b) +:+ c) = String ch (a +:+ (b +:+ c))).
  now rewrite IH.
Qed.

Lemma string_app_nil_r (a : string) : a +:+ "" = a.
Proof.
  induction a as [| ch a IH]; [reflexivity |].
  change (String ch (a +:+ "") = String ch a). now rewrite IH.
Qed.

Section ToUnicode.
Context (utls : Utls).

Lemma hex_bytes_append (data : list Z) (stream : string) :
  foldl (fun stream ch => stream +:+ WriteCharHexTo utls ch) stream data
  = stream
    +:+ foldl (fun stream ch => stream +:+ WriteCharHexTo utls ch) "" data.
Proof.
  revert stream. induction data as [| ch data IH]; intros stream.
  - cbn. now rewrite string_app_nil_r.
  - cbn [foldl]. rewrite IH, (IH ("" +:+ _)).
    now rewrite <- string_app_assoc.
Qed.

Lemma AppendUTF16CodeTo_step_append stream first cp :
  AppendUTF16CodeTo_step utls (stream, first) cp
  = (stream +:+ fst (AppendUTF16CodeTo_step utls ("", first) cp), false).
Proof.
  unfold AppendUTF16CodeTo_step. cbn [fst].
  rewrite hex_bytes_append.
  rewrite (hex_bytes_append _ (if first then "" else "" +:+ " ")).
  destruct first.
  - reflexivity.
  - now rewrite !string_app_assoc.
Qed.

Lemma AppendUTF16CodeTo_steps_append codePoints :
  forall stream first,
    fst (foldl (AppendUTF16CodeTo_step utls) (stream, first) codePoints)
    = stream
      +:+ fst (foldl (AppendUTF16CodeTo_step utls) ("", first) codePoints).
Proof.
  induction codePoints as [| cp codePoints IH]; intros stream first.
  - cbn. now rewrite string_app_nil_r.
  - cbn [foldl]. rewrite AppendUTF16CodeTo_step_append.
    rewrite (AppendUTF16CodeTo_step_append "" first).
    rewrite IH, (IH ("" +:+ _)). now rewrite <- string_app_assoc.
Qed.

(** [AppendUTF16CodeTo] only appends to the stream. *)
Lemma AppendUTF16CodeTo_append stream codePoints :
  AppendUTF16CodeTo utls stream codePoints
  = stream +:+ AppendUTF16CodeTo utls "" codePoints.
Proof.
  unfold AppendUTF16CodeTo.
  pose proof (AppendUTF16CodeTo_steps_append codePoints (stream +:+ "<") true)
    as Hs.
  pose proof (AppendUTF16CodeTo_steps_append codePoints ("" +:+ "<") true)
    as He.
  destruct (foldl _ (stream +:+ "<", true) codePoints) as [s1 b1].
  destruct (foldl _ ("" +:+ "<", true) codePoints) as [s2 b2].
  cbn [fst] in Hs, He. rewrite Hs, He.
  now rewrite !string_app_assoc.
Qed.
Context (m : PdfEncodingMap) (lookup : PdfCharCode -> option CodePointSpan).
Hypothesis Hlookup : lookup_of m lookup.

(** With [n] codes left up to [lastCode] and more fuel than that, the
    loop ends and has appended the lines of these codes. *)
Lemma AppendToUnicodeEntries_loop_lines lastCode (n : nat) :
  forall fuel code stream codePoints,
    0 <= code -> lastCode + 1 < UINT_MOD ->
    Z.to_nat (lastCode + 1 - code) = n -> (n < fuel)%nat ->
    AppendToUnicodeEntries_loop utls m fuel code lastCode stream codePoints
    = Some (Ok (stream
                +:+ foldr String.append ""
                      (bfrange_lines utls lookup code lastCode))).
Proof.
  induction n as [| k IH]; intros fuel code stream codePoints Hcode Hlast Hn Hfuel;
    (destruct fuel as [| fuel]; [lia |]); cbn [AppendToUnicodeEntries_loop].
  - destruct (Z.leb_spec code lastCode) as [Hle | Hgt]; [lia |].
    unfold bfrange_lines. rewrite seqZ_nil by lia. cbn.
    now rewrite string_app_nil_r.
  - destruct (Z.leb_spec code lastCode) as [Hle | Hgt]; [| lia].
    unfold bfrange_lines. rewrite seqZ_cons by lia.
    replace (Z.pred (lastCode - code + 1)) with (lastCode - Z.succ code + 1)
      by lia.
    replace (to_unsigned (code + 1)) with (Z.succ code) by wrap_lia.
    cbn [omap list_omap]. fold (bfrange_lines utls lookup (Z.succ code) lastCode).
    unfold TryGetCodePoints.
    pose proof (Hlookup (PdfCharCode_ctor utls code) codePoints) as Hcall.
    destruct (lookup (PdfCharCode_ctor utls code)) as [found |].
    + rewrite Hcall. rewrite (IH fuel) by lia.
      rewrite AppendUTF16CodeTo_append. cbn [fmap option_fmap option_map foldr].
      now rewrite !string_app_assoc.
    + destruct Hcall as (codePoints' & ->). cbn [fmap option_fmap option_map].
      apply IH; lia.
Qed.

(** C3.  For a one-byte map whose lookups are those of [lookup], and
    whose first and last codes are [unsigned] values with the last one
    below the largest, [AppendToUnicodeEntries] run with more fuel than
    there are codes appends exactly one block: the line
    [1 beginbfrange], the hex forms of FirstChar and LastChar, an
    opening bracket, one line with the UTF-16BE hex literal for each
    code from FirstChar to LastChar that the lookup finds and nothing
    for a code it does not find, a closing bracket and [endbfrange]. *)
Theorem AppendToUnicodeEntries_block (limits : PdfEncodingLimits)
    (fuel : nat) (stream : string) :
  GetLimits m = Ok limits ->
  0 <= Code (FirstChar limits) ->
  Code (LastChar limits) + 1 < UINT_MOD ->
  (Z.to_nat (Code (LastChar limits) + 1 - Code (FirstChar limits)) < fuel)%nat ->
  AppendToUnicodeEntries utls m fuel stream
  = Some (Ok (stream +:+ bfrange_block utls limits lookup)).
Proof.
  intros Hlimits Hfirst Hlast Hfuel. unfold AppendToUnicodeEntries.
  rewrite Hlimits.
  rewrite (AppendToUnicodeEntries_loop_lines (Code (LastChar limits))
             _ fuel (Code (FirstChar limits)) _ [] Hfirst Hlast eq_refl Hfuel).
  unfold bfrange_block. now rewrite !string_app_assoc.
Qed.
End ToUnicode.

Lemma builtin_lookup_of utls e : lookup_of (builtin_map utls e) (builtin_lookup e).
Proof.
  intros codeUnit codePoints. unfold builtin_lookup. cbn.
  unfold builtin_tryGetCodePoints.
  destruct (Code codeUnit >=? 256); [eexists |]; reflexivity.
Qed.

(** For a built-in encoding the lookup finds every code below 256, so
    each of the 256 codes gets its line, a code whose forward entry is
    null included. *)
Lemma builtin_bfrange_lines_all (e : PdfBuiltInEncoding) :
  length (bfrange_lines demo_utls (builtin_lookup e) 0 255) = 256%nat.
Proof. vm_compute. reflexivity. Qed.

Lemma AppendToUnicodeEntries_block_witness :
  GetLimits gap_map = Ok gap_limits
  /\ 0 <= Code (FirstChar gap_limits)
  /\ Code (LastChar gap_limits) + 1 < UINT_MOD
  /\ (Z.to_nat (Code (LastChar gap_limits) + 1 - Code (FirstChar gap_limits))
      < 4)%nat
  /\ AppendToUnicodeEntries demo_utls gap_map 4 "%PDF"
     = Some (Ok ("%PDF1 beginbfrange" +:+ LF
                 +:+ "<41> <43> [" +:+ LF
                 +:+ "<0041>" +:+ LF
                 +:+ "<0043>" +:+ LF
                 +:+ "]" +:+ LF
                 +:+ "endbfrange" +:+ LF)).
Proof.
  assert (Hlimits : GetLimits gap_map = Ok gap_limits) by reflexivity.
  assert (Hfirst : 0 <= Code (FirstChar gap_limits)) by (cbn; lia).
  assert (Hlast : Code (LastChar gap_limits) + 1 < UINT_MOD)
    by (unfold UINT_MOD; cbn; lia).
  assert (Hfuel : (Z.to_nat (Code (LastChar gap_limits) + 1
                             - Code (FirstChar gap_limits)) < 4)%nat)
    by (cbn; lia).
  refine (conj Hlimits (conj Hfirst (conj Hlast (conj Hfuel _)))).
  rewrite (AppendToUnicodeEntries_block demo_utls gap_map
             (codespace_lookup gap_ranges)
             (codespace_lookup_of gap_limits gap_ranges)
             gap_limits 4 "%PDF" Hlimits Hfirst Hlast Hfuel).
  reflexivity.
Defined.

End EncodingMapFacts.

(** ** Signer identities *)

Section SigningContextFacts.
Import SigningContext.

Lemma lxor_lt_pow2 a b n :
  0 <= n -> 0 <= a < 2 ^ n -> 0 <= b < 2 ^ n -> 0 <= Z.lxor a b < 2 ^ n.
Proof.
  intros Hn Ha Hb.
  assert (Hnonneg : 0 <= Z.lxor a b) by (apply Z.lxor_nonneg; lia).
  split; [assumption |].
  destruct (Z.eq_dec (Z.lxor a b) 0) as [-> | Hne]; [lia |].
  apply Z.log2_lt_pow2; [lia |].
  pose proof (Z.log2_lxor a b ltac:(lia) ltac:(lia)) as Hlog.
  assert (Hpos : 0 < n).
  { destruct (Z.eq_dec n 0) as [-> | ]; [| lia].
    exfalso. apply Hne.
    replace a with 0 by lia. replace b with 0 by lia. reflexivity. }
  assert (Z.log2 a < n).
  { destruct (Z.eq_dec a 0) as [-> | ]; [cbn; lia |].
    apply Z.log2_lt_pow2; lia. }
  assert (Z.log2 b < n).
  { destruct (Z.eq_dec b 0) as [-> | ]; [cbn; lia |].
    apply Z.log2_lt_pow2; lia. }
  lia.
Qed.

Lemma PdfReference_eq_true a b : PdfReference_eq a b = true <-> a = b.
Proof.
  unfold PdfReference_eq. rewrite andb_true_iff, !Z.eqb_eq.
  destruct a, b; cbn. split; [intros [-> ->]; reflexivity |].
  intros [= -> ->]. split; reflexivity.
Qed.

(** C9.  With an object number of 32 bits, a generation number of 16 bits
    and a signer index of 32 bits, the hash of a signer id is the
    exclusive or of the object number, the generation number shifted left
    by 16 and the signer index shifted left by 24; and two signer ids
    compare equal exactly when their signature references are equal and
    their signer indices are equal. *)
Theorem PdfSignerId_hash_and_eq :
  (forall id,
     wf_signer_id id ->
     hash id
     = Z.lxor (Z.lxor (ObjectNumber (GetSignatureRef id))
                      (Z.shiftl (GenerationNumber (GetSignatureRef id)) 16))
              (Z.shiftl (GetSignerIndex id) 24))
  /\ (forall lhs rhs,
       PdfSignerId_eq lhs rhs = true
       <-> GetSignatureRef lhs = GetSignatureRef rhs
           /\ GetSignerIndex lhs = GetSignerIndex rhs).
Proof.
  split.
  - intros [[obj gen] idx] ((Hobj & Hgen) & Hidx). cbn in *.
    unfold hash, GetSignatureRef, GetSignerIndex. cbn.
    assert (Hshift : 0 <= Z.shiftl gen 16 < 2 ^ 32)
      by (rewrite Z.shiftl_mul_pow2 by lia; lia).
    assert (Hidx' : 0 <= Z.shiftl idx 24 < 2 ^ 56)
      by (rewrite Z.shiftl_mul_pow2 by lia; lia).
    pose proof (lxor_lt_pow2 obj (Z.shiftl gen 16) 32 ltac:(lia) Hobj Hshift)
      as Hlow.
    replace (to_unsigned (Z.shiftl gen 16)) with (Z.shiftl gen 16) by wrap_lia.
    replace (to_size_t idx) with idx by wrap_lia.
    replace (to_size_t (Z.shiftl idx 24)) with (Z.shiftl idx 24) by wrap_lia.
    f_equal. wrap_lia.
  - intros lhs rhs. unfold PdfSignerId_eq, GetSignatureRef, GetSignerIndex.
    now rewrite andb_true_iff, PdfReference_eq_true, Z.eqb_eq.
Qed.

Lemma PdfSignerId_hash_and_eq_witness :
  let id := mkSignerId (mkReference 12 1) 2 in
  wf_signer_id id /\ hash id = 33619980.
Proof.
  intros id.
  assert (Hwf : wf_signer_id id) by (unfold wf_signer_id, wf_reference; cbn; lia).
  split; [exact Hwf |].
  rewrite (proj1 PdfSignerId_hash_and_eq id Hwf). reflexivity.
Defined.

End SigningContextFacts.

(** ** Stream devices: seeking, reading and writing *)

Section StreamDeviceMore.
Import StreamDevice.

Lemma SeekPosition_Ok_range curpos devlen offset direction p :
  is_size_t devlen -> 0 <= curpos <= devlen -> is_ssize_t offset ->
  SeekPosition curpos devlen offset direction = Ok p ->
  0 <= p <= devlen.
Proof.
  intros Hlen Hpos Hoff. destruct direction; cbn [SeekPosition];
    zbool; intros [= <-]; wrap_lia.
Qed.

(** X1.  A seek succeeds exactly when the position it aims at lies inside
    the device, and then returns that position: [SeekPosition] gives
    [Ok p] if and only if [p] is the offset counted from the begin, the
    current position or the end, and [0 <= p <= devlen]. *)
Theorem SeekPosition_Ok_iff curpos devlen offset direction p :
  is_size_t devlen -> 0 <= curpos <= devlen -> is_ssize_t offset ->
  SeekPosition curpos devlen offset direction = Ok p
  <-> seek_target curpos devlen offset direction = Some p /\ 0 <= p <= devlen.
Proof.
  intros Hlen Hpos Hoff. split.
  - destruct direction; cbn [SeekPosition seek_target];
      zbool; intros [= <-]; (split; [f_equal |]); wrap_lia.
  - intros (Htarget & Hp). destruct direction; cbn in Htarget;
      try discriminate; injection Htarget as <-; cbn [SeekPosition];
      zbool; try (f_equal; wrap_lia); exfalso; wrap_lia.
Qed.

Lemma SeekPosition_Ok_iff_witness :
  is_size_t 10 /\ 0 <= 3 <= 10 /\ is_ssize_t (-2)
  /\ (SeekPosition 3 10 (-2) SeekEnd = Ok 8
      <-> seek_target 3 10 (-2) SeekEnd = Some 8 /\ 0 <= 8 <= 10).
Proof.
  assert (Hlen : is_size_t 10) by (unfold is_size_t, SIZE_MOD; lia).
  assert (Hpos : 0 <= 3 <= 10) by lia.
  assert (Hoff : is_ssize_t (-2)) by (unfold is_ssize_t, SSIZE_MIN, SSIZE_MAX; lia).
  refine (conj Hlen (conj Hpos (conj Hoff _))).
  exact (SeekPosition_Ok_iff 3 10 (-2) SeekEnd 8 Hlen Hpos Hoff).
Defined.

(** X2.  The three directions name the same positions: a target inside the
    device is reached from Begin with the target as offset, from Current
    with the distance from the current position, and from End with the
    distance from the end. *)
Theorem SeekPosition_directions_agree curpos devlen target :
  is_object_size devlen -> 0 <= curpos <= devlen -> 0 <= target <= devlen ->
  SeekPosition curpos devlen target SeekBegin = Ok target
  /\ SeekPosition curpos devlen (target - curpos) SeekCurrent = Ok target
  /\ SeekPosition curpos devlen (target - devlen) SeekEnd = Ok target.
Proof.
  intros Hlen Hpos Htarget. unfold is_object_size in Hlen.
  split; [| split]; cbn [SeekPosition];
    zbool; try (f_equal; wrap_lia); exfalso; wrap_lia.
Qed.

Lemma SeekPosition_directions_agree_witness :
  is_object_size 10 /\ 0 <= 3 <= 10 /\ 0 <= 7 <= 10
  /\ SeekPosition 3 10 7 SeekBegin = Ok 7
  /\ SeekPosition 3 10 (7 - 3) SeekCurrent = Ok 7
  /\ SeekPosition 3 10 (7 - 10) SeekEnd = Ok 7.
Proof.
  assert (Hlen : is_object_size 10) by (unfold is_object_size, SSIZE_MAX; lia).
  assert (Hpos : 0 <= 3 <= 10) by lia.
  assert (Htarget : 0 <= 7 <= 10) by lia.
  refine (conj Hlen (conj Hpos (conj Htarget _))).
  exact (SeekPosition_directions_agree 3 10 7 Hlen Hpos Htarget).
Defined.

(** X3.  The null device keeps its position inside its length: writing,
    reading a buffer, reading a character and seeking all lead from a
    device with [0 <= position <= length] to one. *)
Theorem null_wf_preserved (d : NullStreamDevice) :
  null_wf d ->
  (forall size, is_size_t size -> null_wf (null_writeBuffer d size))
  /\ (forall size, is_size_t size -> null_wf (snd (null_readBuffer d size)))
  /\ null_wf (snd (null_readChar d))
  /\ (forall offset direction,
       is_ssize_t offset -> null_wf (snd (null_seek d offset direction))).
Proof.
  intros (Hpos & Hlen). unfold null_wf. split; [| split; [| split]].
  - intros size Hsize. unfold null_writeBuffer. zbool; cbn; wrap_lia.
  - intros size Hsize. cbn. wrap_lia.
  - unfold null_readChar. zbool; cbn; wrap_lia.
  - intros offset direction Hoff. unfold null_seek.
    destruct (SeekPosition _ _ _ _) as [p | e] eqn:Hseek; cbn; [| tauto].
    split; [| assumption].
    exact (SeekPosition_Ok_range _ _ _ _ _ Hlen Hpos Hoff Hseek).
Qed.

Lemma null_wf_preserved_witness :
  let d := mkNull 5 2 in
  null_wf d /\ is_size_t 7 /\ is_ssize_t (-1)
  /\ null_wf (null_writeBuffer d 7)
  /\ null_wf (snd (null_readBuffer d 7))
  /\ null_wf (snd (null_seek d (-1) SeekCurrent)).
Proof.
  intros d.
  assert (Hwf : null_wf d) by (unfold null_wf, is_size_t, SIZE_MOD; cbn; lia).
  assert (H7 : is_size_t 7) by (unfold is_size_t, SIZE_MOD; lia).
  assert (Hoff : is_ssize_t (-1)) by (unfold is_ssize_t, SSIZE_MIN, SSIZE_MAX; lia).
  destruct (null_wf_preserved d Hwf) as (Hwrite & Hread & _ & Hseek).
  refine (conj Hwf (conj H7 (conj Hoff (conj _ (conj _ _))))).
  - apply Hwrite. exact H7.
  - apply Hread. exact H7.
  - apply Hseek. exact Hoff.
Defined.

(** X4.  Writing [n] bytes to a null device moves the position [n]
    further and grows the length to the new position when that is beyond
    it; stepping back by [n] and reading [n] bytes then reports [n] bytes
    read and brings the device back to where the write left it. *)
Theorem null_write_seek_read (d : NullStreamDevice) (n : Z) :
  null_wf d -> is_object_size n -> null_Position d + n < SIZE_MOD ->
  let d1 := null_writeBuffer d n in
  null_Position d1 = null_Position d + n
  /\ null_Length d1 = Z.max (null_Length d) (null_Position d + n)
  /\ null_seek d1 (- n) SeekCurrent
     = (Ok tt, mkNull (null_Length d1) (null_Position d))
  /\ null_readBuffer (mkNull (null_Length d1) (null_Position d)) n
     = ((n, null_Eof d1), d1).
Proof.
  intros (Hpos & Hlen) Hn Hfit d1.
  assert (Hd1 : d1 = mkNull (Z.max (null_Length d) (null_Position d + n))
                       (null_Position d + n)).
  { subst d1. unfold null_writeBuffer. unfold is_object_size in Hn.
    zbool; f_equal; wrap_lia. }
  rewrite Hd1. cbn [null_Position null_Length]. unfold is_object_size in Hn.
  split; [reflexivity | split; [reflexivity | split]].
  - unfold null_seek. cbn [null_Position null_Length SeekPosition].
    zbool; try (do 2 f_equal; wrap_lia); exfalso; wrap_lia.
  - unfold null_readBuffer, null_Eof. cbn [null_Position null_Length].
    replace (to_size_t (null_Position d + n)) with (null_Position d + n)
      by wrap_lia.
    rewrite Z.min_r by lia.
    do 3 f_equal. wrap_lia.
Qed.

Lemma null_write_seek_read_witness :
  let d := mkNull 5 2 in
  null_wf d /\ is_object_size 7 /\ null_Position d + 7 < SIZE_MOD
  /\ null_writeBuffer d 7 = mkNull 9 9
  /\ null_readBuffer (mkNull 9 2) 7 = ((7, true), mkNull 9 9).
Proof.
  intros d.
  assert (Hwf : null_wf d) by (unfold null_wf, is_size_t, SIZE_MOD; cbn; lia).
  assert (H7 : is_object_size 7) by (unfold is_object_size, SSIZE_MAX; lia).
  assert (Hfit : null_Position d + 7 < SIZE_MOD) by (unfold SIZE_MOD; cbn; lia).
  destruct (null_write_seek_read d 7 Hwf H7 Hfit) as (_ & _ & _ & Hread).
  refine (conj Hwf (conj H7 (conj Hfit (conj _ _)))).
  - reflexivity.
  - exact Hread.
Defined.

(** X5.  Reading from a null device reports the smaller of the size asked
    for and the distance to the end, moves the position by that much, and
    reports end of stream exactly when the size asked for reaches the
    end; at the end it reports no bytes and end of stream. *)
Theorem null_readBuffer_clamps (d : NullStreamDevice) (size : Z) :
  null_wf d -> 0 <= size -> null_Position d + size < SIZE_MOD ->
  let remaining := null_Length d - null_Position d in
  null_readBuffer d size
  = ((Z.min size remaining, remaining <=? size),
     mkNull (null_Length d) (null_Position d + Z.min size remaining))
  /\ (remaining = 0 -> null_readBuffer d size = ((0, true), d)).
Proof.
  intros (Hpos & Hlen) Hsize Hfit remaining. subst remaining.
  assert (Hmain : null_readBuffer d size
    = ((Z.min size (null_Length d - null_Position d),
        null_Length d - null_Position d <=? size),
       mkNull (null_Length d)
         (null_Position d + Z.min size (null_Length d - null_Position d)))).
  { unfold null_readBuffer.
    replace (to_size_t (null_Position d + size)) with (null_Position d + size)
      by wrap_lia.
    f_equal; [f_equal |].
    - wrap_lia.
    - zbool; lia.
    - f_equal. lia. }
  split; [exact Hmain |].
  intros Hzero. rewrite Hmain, Hzero.
  rewrite Z.min_r by lia. rewrite Z.add_0_r.
  destruct d; cbn. f_equal. f_equal. zbool; [reflexivity | lia].
Qed.

Lemma null_readBuffer_clamps_witness :
  let d := mkNull 5 2 in
  null_wf d /\ 0 <= 7 /\ null_Position d + 7 < SIZE_MOD
  /\ null_readBuffer d 7 = ((3, true), mkNull 5 5).
Proof.
  intros d.
  assert (Hwf : null_wf d) by (unfold null_wf, is_size_t, SIZE_MOD; cbn; lia).
  assert (H7 : 0 <= 7) by lia.
  assert (Hfit : null_Position d + 7 < SIZE_MOD) by (unfold SIZE_MOD; cbn; lia).
  refine (conj Hwf (conj H7 (conj Hfit _))).
  exact (proj1 (null_readBuffer_clamps d 7 Hwf H7 Hfit)).
Defined.

(** *** Span devices *)

Lemma span_writeBuffer_Ok (d : SpanStreamDevice) (data : list Z) :
  span_wf d ->
  m_Position d + Z.of_nat (length data) <= m_Length d ->
  span_writeBuffer d data
  = (Ok tt,
     mkSpan (memcpy_at (m_buffer d) (m_Position d) data) (m_Length d)
       (m_Position d + Z.of_nat (length data))).
Proof.
  intros (Hbuf & Hpos & Hlen) Hfit. unfold is_object_size in Hlen.
  unfold span_writeBuffer.
  replace (to_size_t (m_Position d + Z.of_nat (length data)))
    with (m_Position d + Z.of_nat (length data)) by wrap_lia.
  zbool; [lia | reflexivity].
Qed.

Lemma memcpy_at_length (dst src : list Z) (pos : Z) :
  0 <= pos -> pos + Z.of_nat (length src) <= Z.of_nat (length dst) ->
  length (memcpy_at dst pos src) = length dst.
Proof.
  intros Hpos Hfit. unfold memcpy_at.
  rewrite !length_app, length_take, length_drop. lia.
Qed.

Lemma memcpy_at_read_back (dst src : list Z) (pos : Z) :
  0 <= pos -> pos <= Z.of_nat (length dst) ->
  take (length src) (drop (Z.to_nat pos) (memcpy_at dst pos src)) = src.
Proof.
  intros Hpos Hfit. unfold memcpy_at.
  rewrite drop_app_length' by (rewrite length_take; lia).
  apply take_app_length.
Qed.

(** X6.  What is written to a span device can be read back: after a write
    of [data] that fits, stepping back by its size and reading that many
    bytes into a buffer of that size returns [data] unchanged, and
    leaves the device where the write left it. *)
Theorem span_write_seek_read (d : SpanStreamDevice) (data dest : list Z) :
  let n := Z.of_nat (length data) in
  span_wf d -> m_Position d + n <= m_Length d -> length dest = length data ->
  exists d1,
    span_writeBuffer d data = (Ok tt, d1)
    /\ span_wf d1
    /\ span_seek d1 (- n) SeekCurrent
       = (Ok tt, mkSpan (m_buffer d1) (m_Length d1) (m_Position d))
    /\ span_readBuffer (mkSpan (m_buffer d1) (m_Length d1) (m_Position d))
         dest n
       = ((n, span_Eof d1, data), d1).
Proof.
  intros n Hwf Hfit Hdest. subst n.
  pose proof Hwf as (Hbuf & Hpos & Hlen). unfold is_object_size in Hlen.
  eexists. split; [apply (span_writeBuffer_Ok d data Hwf Hfit) |].
  cbn [m_buffer m_Length m_Position].
  split; [| split].
  - split; [| split]; cbn [m_buffer m_Length m_Position].
    + rewrite memcpy_at_length by lia. assumption.
    + lia.
    + assumption.
  - unfold span_seek. cbn [m_buffer m_Length m_Position SeekPosition].
    zbool; try (do 2 f_equal; wrap_lia); exfalso; wrap_lia.
  - unfold span_readBuffer, span_Eof. cbn [m_buffer m_Length m_Position].
    replace (to_size_t (m_Length d - m_Position d))
      with (m_Length d - m_Position d) by wrap_lia.
    rewrite Z.min_l by lia. rewrite Nat2Z.id.
    rewrite memcpy_at_read_back by lia.
    replace (to_size_t (m_Position d + Z.of_nat (length data)))
      with (m_Position d + Z.of_nat (length data)) by wrap_lia.
    f_equal. f_equal. unfold memcpy_at. cbn.
    rewrite drop_ge by lia. apply app_nil_r.
Qed.

Lemma span_write_seek_read_witness :
  let d := mkSpan [1; 2; 3; 4; 5] 5 1 in
  span_wf d /\ m_Position d + 3 <= m_Length d
  /\ length [0; 0; 0] = length [7; 8; 9]
  /\ exists d1,
       span_writeBuffer d [7; 8; 9] = (Ok tt, d1)
       /\ span_wf d1
       /\ span_seek d1 (- 3) SeekCurrent
          = (Ok tt, mkSpan (m_buffer d1) (m_Length d1) (m_Position d))
       /\ span_readBuffer (mkSpan (m_buffer d1) (m_Length d1) (m_Position d))
            [0; 0; 0] 3
          = ((3, span_Eof d1, [7; 8; 9]), d1).
Proof.
  intros d.
  assert (Hwf : span_wf d)
    by (unfold span_wf, is_object_size, SSIZE_MAX; cbn; lia).
  assert (Hfit : m_Position d + 3 <= m_Length d) by (cbn; lia).
  assert (Hdest : length [0; 0; 0] = length [7; 8; 9]) by reflexivity.
  refine (conj Hwf (conj Hfit (conj Hdest _))).
  exact (span_write_seek_read d [7; 8; 9] [0; 0; 0] Hwf Hfit Hdest).
Defined.

(** X7.  A write to a span device that succeeds changes the bytes of the
    window it writes and nothing else: the buffer keeps its size, byte
    [j] of the data is at position [P + j], and every byte before [P] or
    from [P + n] on is as before. *)
Theorem span_writeBuffer_window (d d1 : SpanStreamDevice) (data : list Z) :
  let P := Z.to_nat (m_Position d) in
  let n := length data in
  span_wf d -> is_object_size (Z.of_nat n) ->
  span_writeBuffer d data = (Ok tt, d1) ->
  length (m_buffer d1) = length (m_buffer d)
  /\ m_Length d1 = m_Length d
  /\ (forall j, (j < n)%nat -> m_buffer d1 !! (P + j)%nat = data !! j)
  /\ (forall i, (i < P \/ P + n <= i)%nat ->
              m_buffer d1 !! i = m_buffer d !! i).
Proof.
  intros P n Hwf Hn Hwrite. subst P n.
  pose proof Hwf as (Hbuf & Hpos & Hlen).
  unfold is_object_size in Hlen, Hn.
  assert (Hfit : m_Position d + Z.of_nat (length data) <= m_Length d).
  { unfold span_writeBuffer in Hwrite. revert Hwrite.
    zbool; [discriminate |]. intros _. wrap_lia. }
  rewrite (span_writeBuffer_Ok d data Hwf Hfit) in Hwrite.
  injection Hwrite as <-. cbn [m_buffer m_Length m_Position].
  split; [apply memcpy_at_length; lia |]. split; [reflexivity |].
  unfold memcpy_at.
  assert (Htake : length (take (Z.to_nat (m_Position d)) (m_buffer d))
                  = Z.to_nat (m_Position d))
    by (rewrite length_take; lia).
  split.
  - intros j Hj. rewrite lookup_app_r by lia. rewrite Htake.
    replace (Z.to_nat (m_Position d) + j - Z.to_nat (m_Position d))%nat
      with j by lia.
    now rewrite lookup_app_l by lia.
  - intros i [Hi | Hi].
    + rewrite lookup_app_l by lia. now rewrite lookup_take_lt by lia.
    + rewrite lookup_app_r by lia. rewrite Htake.
      rewrite lookup_app_r by lia. rewrite lookup_drop. f_equal. lia.
Qed.

Lemma span_writeBuffer_window_witness :
  let d := mkSpan [1; 2; 3; 4; 5] 5 1 in
  let d1 := mkSpan [1; 7; 8; 4; 5] 5 3 in
  span_wf d /\ is_object_size (Z.of_nat (length [7; 8]))
  /\ span_writeBuffer d [7; 8] = (Ok tt, d1)
  /\ length (m_buffer d1) = length (m_buffer d).
Proof.
  intros d d1.
  assert (Hwf : span_wf d)
    by (unfold span_wf, is_object_size, SSIZE_MAX; cbn; lia).
  assert (Hn : is_object_size (Z.of_nat (length [7; 8])))
    by (unfold is_object_size, SSIZE_MAX; cbn; lia).
  assert (Hwrite : span_writeBuffer d [7; 8] = (Ok tt, d1)) by reflexivity.
  refine (conj Hwf (conj Hn (conj Hwrite _))).
  exact (proj1 (span_writeBuffer_window d d1 [7; 8] Hwf Hn Hwrite)).
Defined.

(** X8.  A read from a span device returns the smaller of the size asked
    for and the distance to the end; the bytes it puts at the start of
    the destination are those of the buffer from the position on, the
    position moves by the count, the buffer of the device is untouched,
    and end of stream is reported exactly when the end is reached. *)
Theorem span_readBuffer_clamps (d : SpanStreamDevice) (dest : list Z) (size : Z) :
  let P := m_Position d in
  let count := Z.min size (m_Length d - P) in
  span_wf d -> 0 <= size -> size <= Z.of_nat (length dest) ->
  exists dest',
    span_readBuffer d dest size
    = ((count, m_Length d - P <=? size, dest'),
       mkSpan (m_buffer d) (m_Length d) (P + count))
    /\ length dest' = length dest
    /\ (forall j, (j < Z.to_nat count)%nat ->
                dest' !! j = m_buffer d !! (Z.to_nat P + j)%nat)
    /\ (forall j, (Z.to_nat count <= j)%nat -> dest' !! j = dest !! j).
Proof.
  intros P count Hwf Hsize Hdest. subst P count.
  pose proof Hwf as (Hbuf & Hpos & Hlen). unfold is_object_size in Hlen.
  set (count := Z.min size (m_Length d - m_Position d)).
  set (data := take (Z.to_nat count) (drop (Z.to_nat (m_Position d)) (m_buffer d))).
  assert (Hdata : length data = Z.to_nat count).
  { subst data. rewrite length_take, length_drop. lia. }
  exists (memcpy_at dest 0 data). split; [| split; [| split]].
  - unfold span_readBuffer.
    replace (to_size_t (m_Length d - m_Position d))
      with (m_Length d - m_Position d) by wrap_lia.
    fold count. fold data.
    replace (to_size_t (m_Position d + count)) with (m_Position d + count)
      by wrap_lia.
    f_equal. f_equal. f_equal. zbool; lia.
  - apply memcpy_at_length; lia.
  - intros j Hj. unfold memcpy_at. change (Z.to_nat 0) with 0%nat.
    rewrite take_0, app_nil_l, lookup_app_l by lia. subst data.
    rewrite lookup_take_lt by lia. now rewrite lookup_drop.
  - intros j Hj. unfold memcpy_at. change (Z.to_nat 0) with 0%nat.
    rewrite take_0, app_nil_l, lookup_app_r by lia.
    rewrite lookup_drop. f_equal. lia.
Qed.

Lemma span_readBuffer_clamps_witness :
  let d := mkSpan [1; 2; 3; 4; 5] 5 3 in
  span_wf d /\ 0 <= 4 /\ 4 <= Z.of_nat (length [0; 0; 0; 0])
  /\ exists dest',
       span_readBuffer d [0; 0; 0; 0] 4
       = ((2, true, dest'), mkSpan [1; 2; 3; 4; 5] 5 5)
       /\ length dest' = 4%nat.
Proof.
  intros d.
  assert (Hwf : span_wf d)
    by (unfold span_wf, is_object_size, SSIZE_MAX; cbn; lia).
  assert (Hsize : 0 <= 4) by lia.
  assert (Hdest : 4 <= Z.of_nat (length [0; 0; 0; 0])) by (cbn; lia).
  refine (conj Hwf (conj Hsize (conj Hdest _))).
  destruct (span_readBuffer_clamps d [0; 0; 0; 0] 4 Hwf Hsize Hdest)
    as (dest' & Hread & Hlen & _).
  exists dest'. split; [exact Hread | exact Hlen].
Defined.

(** X25.  On a span device reading one character is reading a buffer of
    one byte: below the end [readChar] returns true with the byte that
    [peek] shows and that a one-byte [readBuffer] delivers, and leaves
    the device as that read does; at the end [readChar] and [peek] return
    false with the null character, the read delivers nothing, and the
    device stays as it is. *)
Theorem span_readChar_is_one_byte_read (d : SpanStreamDevice) (x : Z) :
  span_wf d ->
  (m_Position d < m_Length d ->
     exists ch,
       m_buffer d !! Z.to_nat (m_Position d) = Some ch
       /\ span_peek d = (ch, true)
       /\ fst (span_readChar d) = (ch, true)
       /\ fst (span_readBuffer d [x] 1)
          = (1, span_Eof (snd (span_readChar d)), [ch])
       /\ snd (span_readChar d) = snd (span_readBuffer d [x] 1))
  /\ (m_Position d = m_Length d ->
      span_peek d = (0, false)
      /\ span_readChar d = ((0, false), d)
      /\ span_readBuffer d [x] 1 = ((0, true, [x]), d)).
Proof.
  intros (Hbuf & Hpos & Hlen). unfold is_object_size in Hlen.
  unfold span_peek, span_readChar, span_readBuffer, span_Eof. split.
  - intros Hbelow.
    destruct (lookup_lt_is_Some_2 (m_buffer d) (Z.to_nat (m_Position d)))
      as (ch & Hch); [lia |].
    exists ch. split; [exact Hch |].
    rewrite (nth_lookup_Some _ _ 0 ch Hch).
    destruct (Z.eqb_spec (m_Position d) (m_Length d)) as [| _]; [lia |].
    replace (to_size_t (m_Length d - m_Position d))
      with (m_Length d - m_Position d) by wrap_lia.
    rewrite Z.min_l by lia. cbn [fst snd m_Position m_Length].
    rewrite (drop_S _ _ _ Hch). cbn [take Z.to_nat Pos.to_nat Pos.iter_op].
    repeat split; reflexivity.
  - intros Hend.
    replace (to_size_t (m_Length d - m_Position d)) with 0 by wrap_lia.
    rewrite Z.min_r by lia. rewrite Z.add_0_r.
    replace (to_size_t (m_Position d)) with (m_Position d) by wrap_lia.
    destruct (Z.eqb_spec (m_Position d) (m_Length d)) as [_ |]; [| lia].
    destruct d; repeat split; reflexivity.
Qed.

Lemma span_readChar_is_one_byte_read_witness :
  let d := mkSpan [1; 2; 3] 3 1 in
  span_wf d /\ m_Position d < m_Length d
  /\ exists ch,
       m_buffer d !! Z.to_nat (m_Position d) = Some ch
       /\ span_peek d = (ch, true)
       /\ fst (span_readChar d) = (ch, true)
       /\ fst (span_readBuffer d [0] 1)
          = (1, span_Eof (snd (span_readChar d)), [ch])
       /\ snd (span_readChar d) = snd (span_readBuffer d [0] 1).
Proof.
  intros d.
  assert (Hwf : span_wf d)
    by (unfold span_wf, is_object_size, SSIZE_MAX; cbn; lia).
  assert (Hbelow : m_Position d < m_Length d) by (cbn; lia).
  refine (conj Hwf (conj Hbelow _)).
  exact (proj1 (span_readChar_is_one_byte_read d 0 Hwf) Hbelow).
Defined.

(** *** Opening files *)

Lemma createFile_Ok_inv {FILE : Type} (host : Host FILE) filepath mode access
    stream :
  createFile host filepath mode access = Ok stream ->
  exists cmode,
    createFile_cmode host filepath mode access = Ok cmode
    /\ utls_fopen host filepath (platform_cmode host cmode) = Some stream.
Proof.
  unfold createFile.
  destruct (createFile_cmode host filepath mode access) as [cmode | e];
    cbn; [| discriminate].
  destruct (utls_fopen host filepath (platform_cmode host cmode)) as [f |] eqn:Hf;
    [| discriminate].
  intros [= <-]. exists cmode. split; [reflexivity | assumption].
Qed.

(** X9.  The mode chosen for a file respects whether the file exists:
    when the switch of [createFile] selects a mode, the file does not
    exist under CreateNew, it exists under Truncate, it exists under Open
    with an access other than Read, and it exists whenever the mode
    selected is r+. *)
Theorem createFile_respects_existence {FILE : Type} (host : Host FILE)
    filepath mode access cmode :
  createFile_cmode host filepath mode access = Ok cmode ->
  (mode = CreateNew -> fs_exists host filepath = false)
  /\ (mode = Truncate -> fs_exists host filepath = true)
  /\ (mode = Open -> access <> Read -> fs_exists host filepath = true)
  /\ (cmode = "r+" -> fs_exists host filepath = true).
Proof.
  intros Hsel.
  destruct mode; cbn [createFile_cmode] in Hsel;
    destruct (fs_exists host filepath) eqn:Hex;
    revert Hsel; access_cases access; cbn; intros Hsel;
    try discriminate Hsel;
    (repeat split; intros; try reflexivity; try discriminate; try congruence).
Qed.

Lemma createFile_respects_existence_witness :
  let host := list_host ["a.pdf"] false in
  createFile_cmode host "a.pdf" OpenOrCreate ReadWrite = Ok "r+"
  /\ fs_exists host "a.pdf" = true.
Proof.
  intros host.
  assert (Hsel : createFile_cmode host "a.pdf" OpenOrCreate ReadWrite = Ok "r+")
    by reflexivity.
  split; [exact Hsel |].
  apply (createFile_respects_existence host "a.pdf" OpenOrCreate ReadWrite "r+" Hsel).
  reflexivity.
Defined.

(** X10.  [createFile] opens a file only for an access and a mode of the
    enumerations: when it returns a handle, the access is Read, Write or
    ReadWrite and the mode is one of the six enumerators; with Read the
    mode is Open and the mode string is r.  For such a mode and access
    the switch never raises InvalidEnumValue. *)
Theorem createFile_checks_enums {FILE : Type} (host : Host FILE)
    filepath mode access :
  (forall stream,
     createFile host filepath mode access = Ok stream ->
     (access = Read \/ access = Write \/ access = ReadWrite)
     /\ mode <> FileModeOutOfSet
     /\ (access = Read ->
         mode = Open
         /\ createFile_cmode host filepath mode access = Ok "r"))
  /\ (mode <> FileModeOutOfSet ->
      access = Read \/ access = Write \/ access = ReadWrite ->
      createFile_cmode host filepath mode access <> Raise InvalidEnumValue).
Proof.
  split.
  - intros stream Hopen.
    destruct (createFile_Ok_inv host _ _ _ _ Hopen) as (cmode & Hsel & _).
    clear Hopen.
    destruct mode; cbn [createFile_cmode] in *;
      destruct (fs_exists host filepath);
      revert Hsel; access_cases access; cbn; intros Hsel;
      try discriminate Hsel;
      (split; [tauto | split; [discriminate |]]);
      intros Hread; try discriminate Hread; try congruence;
      split; reflexivity.
  - intros Hmode [-> | [-> | ->]];
      destruct mode; try contradiction; cbn;
      destruct (fs_exists host filepath); cbn; discriminate.
Qed.

Lemma createFile_checks_enums_witness :
  let host := list_host ["a.pdf"] false in
  createFile host "a.pdf" Open Read = Ok "r"
  /\ Open <> FileModeOutOfSet
  /\ createFile_cmode host "a.pdf" Open Read <> Raise InvalidEnumValue.
Proof.
  intros host.
  assert (Hopen : createFile host "a.pdf" Open Read = Ok "r") by reflexivity.
  destruct (createFile_checks_enums host "a.pdf" Open Read) as (Hok & Hnever).
  destruct (Hok "r" Hopen) as (Haccess & Hmode & _).
  refine (conj Hopen (conj Hmode _)).
  exact (Hnever Hmode Haccess).
Defined.

(** X11.  The constructor [FileStreamDevice(filepath, mode)] derives a
    writing access and with it never empties a file that exists unless
    the mode is Create or Truncate: when it obtains a handle for an
    existing file through a mode string that truncates, the mode is one
    of these two.  The constructor with explicit access is different:
    Open with Write on an existing file selects the truncating mode w. *)
Theorem FileStreamDevice_mode_keeps_content {FILE : Type} (host : Host FILE)
    filepath :
  (forall mode stream,
     FileStreamDevice_mode host filepath mode = Ok stream ->
     exists cmode,
       createFile_cmode host filepath mode (mode_access mode) = Ok cmode
       /\ utls_fopen host filepath (platform_cmode host cmode) = Some stream
       /\ (fs_exists host filepath = true -> truncating cmode = true ->
           mode = Create \/ mode = Truncate))
  /\ (fs_exists host filepath = true ->
      createFile_cmode host filepath Open Write = Ok "w"
      /\ truncating "w" = true).
Proof.
  split.
  - intros mode stream Hopen. unfold FileStreamDevice_mode in Hopen.
    destruct (createFile_Ok_inv host _ _ _ _ Hopen) as (cmode & Hsel & Hfopen).
    exists cmode. split; [assumption | split; [assumption |]].
    intros Hex Htrunc.
    destruct mode; cbn in Hsel; rewrite ?Hex in Hsel; cbn in Hsel;
      try discriminate Hsel; injection Hsel as <-;
      try discriminate Htrunc; tauto.
  - intros Hex. cbn. rewrite Hex. split; reflexivity.
Qed.

Lemma FileStreamDevice_mode_keeps_content_witness :
  let host := list_host ["a.pdf"] false in
  FileStreamDevice_mode host "a.pdf" Truncate = Ok "w+"
  /\ fs_exists host "a.pdf" = true
  /\ createFile_cmode host "a.pdf" Open Write = Ok "w".
Proof.
  intros host.
  assert (Hopen : FileStreamDevice_mode host "a.pdf" Truncate = Ok "w+")
    by reflexivity.
  assert (Hex : fs_exists host "a.pdf" = true) by reflexivity.
  refine (conj Hopen (conj Hex _)).
  exact (proj1 (proj2 (FileStreamDevice_mode_keeps_content host "a.pdf") Hex)).
Defined.

End StreamDeviceMore.

(** ** Encoding maps: CIDs, built-in round trips and glyph maps *)

Section EncodingMapMore.
Import EncodingMap.

Lemma lor_disjoint_add a b n :
  0 <= n -> 0 <= b < 2 ^ n -> Z.lor (a * 2 ^ n) b = a * 2 ^ n + b.
Proof.
  intros Hn Hb.
  rewrite <- (Z.add_lor_land (a * 2 ^ n) b).
  assert (Hland : Z.land (a * 2 ^ n) b = 0).
  { apply Z.bits_inj'. intros m Hm.
    rewrite Z.land_spec, Z.bits_0.
    destruct (Z.lt_ge_cases m n) as [Hlow | Hhigh].
    - now rewrite Z.mul_pow2_bits_low.
    - apply andb_false_intro2.
      destruct (Z.eq_dec b 0) as [-> | Hnz]; [apply Z.bits_0 |].
      apply Z.bits_above_log2; [lia |].
      apply Z.lt_le_trans with n; [| assumption].
      apply Z.log2_lt_pow2; lia. }
  rewrite Hland. lia.
Qed.

Lemma big_endian_snoc bytes ch :
  big_endian (bytes ++ [ch]) = 256 * big_endian bytes + to_uchar ch.
Proof. unfold big_endian. now rewrite foldl_snoc. Qed.

Lemma big_endian_range bytes :
  0 <= big_endian bytes < 256 ^ Z.of_nat (length bytes).
Proof.
  induction bytes as [| ch bytes IH] using rev_ind; [cbn; lia |].
  rewrite big_endian_snoc, length_app. cbn [length].
  replace (Z.of_nat (length bytes + 1)) with (Z.succ (Z.of_nat (length bytes)))
    by lia.
  rewrite Z.pow_succ_r by lia.
  assert (0 <= to_uchar ch < 256) by wrap_lia. lia.
Qed.

(** X12.  The code that the decoding loops accumulate is the number the
    bytes spell with the most significant byte first, reduced modulo
    2^32; for up to four bytes it is that number itself, and it is below
    256 to the power of the number of bytes. *)
Theorem accumulate_big_endian (bytes : list Z) :
  accumulate bytes = big_endian bytes mod 2 ^ 32
  /\ ((length bytes <= 4)%nat ->
      accumulate bytes = big_endian bytes
      /\ 0 <= accumulate bytes < 256 ^ Z.of_nat (length bytes)).
Proof.
  assert (Hmod : accumulate bytes = big_endian bytes mod 2 ^ 32).
  { induction bytes as [| ch bytes IH] using rev_ind; [reflexivity |].
    rewrite accumulate_snoc, big_endian_snoc, IH.
    rewrite Z.shiftl_mul_pow2 by lia.
    replace (to_unsigned (big_endian bytes mod 2 ^ 32 * 2 ^ 8))
      with ((big_endian bytes mod 2 ^ 24) * 2 ^ 8) by wrap_lia.
    rewrite lor_disjoint_add by wrap_lia.
    assert (0 <= to_uchar ch < 256) by wrap_lia.
    generalize dependent (to_uchar ch). intros b Hb.
    generalize (big_endian bytes). intros v.
    Z.div_mod_to_equations. lia. }
  split; [exact Hmod |].
  intros Hlen. pose proof (big_endian_range bytes) as Hrange.
  assert (256 ^ Z.of_nat (length bytes) <= 2 ^ 32).
  { change (2 ^ 32) with (256 ^ 4).
    apply Z.pow_le_mono_r; lia. }
  rewrite Hmod, Z.mod_small by lia. split; [reflexivity | exact Hrange].
Qed.

Lemma accumulate_big_endian_witness :
  (length [0x81; 0x40] <= 4)%nat
  /\ accumulate [0x81; 0x40] = 0x8140.
Proof.
  assert (Hlen : (length [0x81; 0x40] <= 4)%nat) by (cbn; lia).
  split; [exact Hlen |].
  rewrite (proj1 (proj2 (accumulate_big_endian [0x81; 0x40]) Hlen)).
  reflexivity.
Defined.

(** *** TryGetNextCID *)

Lemma TryGetNextCID_loop_spec (limits : PdfEncodingLimits) (text : list Z) :
  1 <= MaxCodeSize limits <= 255 ->
  forall curr (n : nat),
    drop n text = curr ->
    Z.of_nat n < MaxCodeSize limits ->
    TryGetNextCID_loop limits curr (accumulate (take n text)) (Z.of_nat n + 1)
    = if decide (Z.to_nat (MaxCodeSize limits) <= length text)%nat
      then Some (drop (Z.to_nat (MaxCodeSize limits)) text,
                 accumulate (take (Z.to_nat (MaxCodeSize limits)) text))
      else None.
Proof.
  intros Hmax. induction curr as [| ch curr' IH]; intros n Hdrop Hn.
  - cbn. apply drop_nil_inv in Hdrop.
    case_decide; [lia | reflexivity].
  - destruct (drop_cons_inv _ _ _ _ Hdrop) as (Hat & Hrest & Hlt).
    cbn [TryGetNextCID_loop].
    rewrite <- accumulate_snoc, <- (take_S_r _ _ _ Hat).
    destruct (Z.eqb_spec (Z.of_nat n + 1) (MaxCodeSize limits)) as [Hlast | Hmore].
    + replace (Z.to_nat (MaxCodeSize limits)) with (S n) by lia.
      destruct (decide (S n <= length text)%nat); [| lia]. now rewrite Hrest.
    + replace (to_uchar (Z.of_nat n + 1 + 1)) with (Z.of_nat (S n) + 1)
        by wrap_lia.
      apply IH; [assumption | lia].
Qed.

(** X13.  For a map that is no CMap and whose MaxCodeSize is between 1
    and 255, [TryGetNextCID] takes exactly MaxCodeSize bytes: when the
    text has that many, it returns true, the CID and the char code are
    both the code accumulated from these bytes, of width MaxCodeSize,
    and the iterator has moved past them; when the text is shorter it
    returns false with the CID cleared and the iterator where it was. *)
Theorem TryGetNextCID_simple (type : PdfEncodingMapType) (m : PdfEncodingMap)
    (limits : PdfEncodingLimits) (it : list Z) (cid : PdfCID) :
  let size := Z.to_nat (MaxCodeSize limits) in
  let code := accumulate (take size it) in
  type <> CMap -> GetLimits m = Ok limits -> 1 <= MaxCodeSize limits <= 255 ->
  ((size <= length it)%nat ->
     TryGetNextCID type m it cid
     = Ok (true, drop size it,
           mkCID code (mkCharCode code (MaxCodeSize limits))))
  /\ ((length it < size)%nat ->
      TryGetNextCID type m it cid = Ok (false, it, PdfCID_null)).
Proof.
  intros size code Htype Hlimits Hmax. subst size code.
  assert (Hrun : TryGetNextCID type m it cid
    = match TryGetNextCID_loop limits it 0 1 with
      | Some (curr, code) =>
          Ok (true, curr, mkCID code (mkCharCode code (MaxCodeSize limits)))
      | None => Ok (false, it, PdfCID_null)
      end).
  { unfold TryGetNextCID. destruct type; try contradiction;
      now rewrite Hlimits. }
  rewrite Hrun.
  pose proof (TryGetNextCID_loop_spec limits it Hmax it 0%nat eq_refl
                ltac:(lia)) as Hloop.
  change (accumulate (take 0 it)) with 0 in Hloop.
  change (Z.of_nat 0 + 1) with 1 in Hloop. rewrite Hloop.
  split; intros Hlen; case_decide; try lia; reflexivity.
Qed.

Lemma TryGetNextCID_simple_witness :
  Simple <> CMap
  /\ GetLimits mixed_width_map = Ok mixed_width_limits
  /\ 1 <= MaxCodeSize mixed_width_limits <= 255
  /\ TryGetNextCID Simple mixed_width_map [0x81; 0x40; 0x41] PdfCID_null
     = Ok (true, [0x41], mkCID 0x8140 (mkCharCode 0x8140 2))
  /\ TryGetNextCID Simple mixed_width_map [0x81] PdfCID_null
     = Ok (false, [0x81], PdfCID_null).
Proof.
  assert (Htype : Simple <> CMap) by discriminate.
  assert (Hlimits : GetLimits mixed_width_map = Ok mixed_width_limits)
    by reflexivity.
  assert (Hmax : 1 <= MaxCodeSize mixed_width_limits <= 255) by (cbn; lia).
  refine (conj Htype (conj Hlimits (conj Hmax (conj _ _)))).
  - rewrite (proj1 (TryGetNextCID_simple Simple mixed_width_map
                      mixed_width_limits [0x81; 0x40; 0x41] PdfCID_null
                      Htype Hlimits Hmax)); [reflexivity | cbn; lia].
  - apply (TryGetNextCID_simple Simple mixed_width_map mixed_width_limits
             [0x81] PdfCID_null Htype Hlimits Hmax). cbn. lia.
Defined.



(** *** Built-in encodings: encoding and decoding *)

(** X15.  Encoding then decoding is the identity: when [tryGetCharCode]
    of a built-in encoding finds a char code for a code point, that char
    code is a one-byte code below 256 and [tryGetCodePoints] maps it back
    to exactly that code point. *)
Theorem builtin_encode_decode (e e' : PdfBuiltInEncoding) (codePoint : Z)
    (codeUnit : PdfCharCode) (codePoints : CodePointSpan) :
  encoding_ok e ->
  builtin_tryGetCharCode e codePoint = ((true, codeUnit), e') ->
  0 <= Code codeUnit < 256
  /\ CodeSpaceSize codeUnit = 1
  /\ builtin_tryGetCodePoints e' codeUnit None codePoints
     = (true, [codePoint]).
Proof.
  intros Hok Hencode.
  rewrite (builtin_tryGetCharCode_lookup e codePoint Hok) in Hencode.
  destruct (highest_code (GetToUnicodeTable e) codePoint 256) as [c |] eqn:Hc;
    [| discriminate].
  injection Hencode as <- <-.
  apply highest_code_Some in Hc as (Hrange & Hat & _).
  change (Z.of_nat 256) with 256 in Hrange.
  unfold builtin_tryGetCodePoints.
  cbn [GetToUnicodeTable Code CodeSpaceSize].
  split; [exact Hrange | split; [reflexivity |]].
  zbool; [lia |]. now rewrite Hat.
Qed.

Lemma builtin_encode_decode_witness :
  let e := PdfBuiltInEncoding_new shifted_table in
  encoding_ok e
  /\ fst (builtin_tryGetCharCode e 97) = (true, mkCharCode 65 1)
  /\ builtin_tryGetCodePoints (snd (builtin_tryGetCharCode e 97))
       (mkCharCode 65 1) None [] = (true, [97]).
Proof.
  intros e.
  assert (Hok : encoding_ok e) by (left; reflexivity).
  assert (Hencode : builtin_tryGetCharCode e 97
                    = ((true, mkCharCode 65 1),
                       snd (builtin_tryGetCharCode e 97))).
  { rewrite (builtin_tryGetCharCode_lookup e 97 Hok). reflexivity. }
  refine (conj Hok (conj _ _)).
  - now rewrite Hencode.
  - apply (builtin_encode_decode e _ 97 (mkCharCode 65 1) [] Hok Hencode).
Defined.

(** X16.  [tryGetCharCode] of a built-in encoding fails exactly for the
    code points that no code of the forward table holds, and then the
    char code it hands back is the cleared one. *)
Theorem builtin_tryGetCharCode_fails_iff (e : PdfBuiltInEncoding)
    (codePoint : Z) :
  encoding_ok e ->
  let r := fst (builtin_tryGetCharCode e codePoint) in
  (fst r = false
   <-> forall c, 0 <= c < 256 ->
                 table_at (GetToUnicodeTable e) c <> codePoint)
  /\ (fst r = false -> snd r = PdfCharCode_null).
Proof.
  intros Hok r. subst r.
  rewrite (builtin_tryGetCharCode_lookup e codePoint Hok). cbn [fst].
  destruct (highest_code (GetToUnicodeTable e) codePoint 256) as [c |] eqn:Hc;
    cbn [fst snd].
  - apply highest_code_Some in Hc as (Hrange & Hat & _).
    change (Z.of_nat 256) with 256 in Hrange.
    split; [| discriminate]. split; [discriminate |].
    intros Habsent. exfalso. exact (Habsent c Hrange Hat).
  - split; [| reflexivity]. split; [| reflexivity].
    intros _ c Hrange Hat.
    destruct (highest_code_above (GetToUnicodeTable e) codePoint 256 c)
      as (c' & Hsome & _); [exact Hrange | exact Hat |].
    congruence.
Qed.

Lemma builtin_tryGetCharCode_fails_iff_witness :
  let e := PdfBuiltInEncoding_new shifted_table in
  encoding_ok e
  /\ fst (builtin_tryGetCharCode e 5) = (false, PdfCharCode_null)
  /\ forall c, 0 <= c < 256 -> table_at shifted_table c <> 5.
Proof.
  intros e.
  assert (Hok : encoding_ok e) by (left; reflexivity).
  assert (Hfail : fst (builtin_tryGetCharCode e 5) = (false, PdfCharCode_null)).
  { rewrite (builtin_tryGetCharCode_lookup e 5 Hok). reflexivity. }
  refine (conj Hok (conj Hfail _)).
  apply (builtin_tryGetCharCode_fails_iff e 5 Hok). now rewrite Hfail.
Defined.

(** X17.  Decoding with a built-in encoding takes the text one byte at a
    time: on a text that is not empty [tryGetNextCodePoints] returns
    true with the first byte as a one-byte char code and the forward
    entry of that byte as its single code point, and [TryGetNextCID]
    (the map is a simple one) returns the byte as CID; both move the
    iterator by one byte.  On the empty text the decoding fails. *)
Theorem builtin_decodes_one_byte (utls : Utls) (e : PdfBuiltInEncoding)
    (ch : Z) (rest : list Z) (codeUnit : PdfCharCode)
    (codePoints : CodePointSpan) (cid : PdfCID) :
  let code := mkCharCode (to_uchar ch) 1 in
  tryGetNextCodePoints (builtin_map utls e) (ch :: rest) codeUnit codePoints
  = Ok (mkNext true rest code [table_at (GetToUnicodeTable e) (to_uchar ch)])
  /\ TryGetNextCID Simple (builtin_map utls e) (ch :: rest) cid
     = Ok (true, rest, mkCID (to_uchar ch) code)
  /\ tryGetNextCodePoints (builtin_map utls e) [] codeUnit codePoints
     = Ok (mkNext false [] codeUnit codePoints)
  /\ TryGetNextCID Simple (builtin_map utls e) [] cid
     = Ok (false, [], PdfCID_null).
Proof.
  intros code. subst code.
  assert (Hcode : Z.lor (to_unsigned (Z.shiftl 0 8)) (to_uchar ch) = to_uchar ch)
    by (rewrite Z.shiftl_0_l; apply Z.lor_0_l).
  split; [| split; [| split]]; try reflexivity.
  unfold tryGetNextCodePoints, builtin_map, builtin_GetLimits.
    cbn [GetLimits mbind result_bind tryGetNextCodePoints_loop MaxCodeSize
         MinCodeSize tryGetCodePoints].
    rewrite Hcode. change (1 >? 1) with false. change (1 <? 1) with false.
    cbn iota. unfold builtin_tryGetCodePoints. cbn [Code].
    assert (0 <= to_uchar ch < 256) by wrap_lia.
    zbool; [lia | reflexivity].
Qed.

(** X26.  The lazily built reverse table does not change the answers:
    after any call of [tryGetCharCode] has built it, a further call
    returns what it would have returned on the fresh encoding, leaves the
    encoding as it is, and [initEncodingTable] does nothing more. *)
Theorem builtin_tryGetCharCode_repeatable (e : PdfBuiltInEncoding)
    (first second : Z) :
  encoding_ok e ->
  let e1 := snd (builtin_tryGetCharCode e first) in
  fst (builtin_tryGetCharCode e1 second) = fst (builtin_tryGetCharCode e second)
  /\ snd (builtin_tryGetCharCode e1 second) = e1
  /\ initEncodingTable e1 = e1.
Proof.
  intros Hok e1.
  assert (He1 : e1 = mkBuiltIn (GetToUnicodeTable e)
                       (reverse_table (GetToUnicodeTable e))).
  { subst e1. now rewrite (builtin_tryGetCharCode_lookup e first Hok). }
  assert (Hok1 : encoding_ok e1) by (rewrite He1; right; reflexivity).
  rewrite (builtin_tryGetCharCode_lookup e1 second Hok1).
  rewrite (builtin_tryGetCharCode_lookup e second Hok).
  rewrite (initEncodingTable_builds e1 Hok1).
  rewrite He1. cbn [fst snd GetToUnicodeTable]. repeat split; reflexivity.
Qed.

Lemma builtin_tryGetCharCode_repeatable_witness :
  let e := PdfBuiltInEncoding_new shifted_table in
  let e1 := snd (builtin_tryGetCharCode e 97) in
  encoding_ok e
  /\ fst (builtin_tryGetCharCode e1 98) = fst (builtin_tryGetCharCode e 98).
Proof.
  intros e e1.
  assert (Hok : encoding_ok e) by (left; reflexivity).
  split; [exact Hok |].
  exact (proj1 (builtin_tryGetCharCode_repeatable e 97 98 Hok)).
Defined.

(** *** CreateUnicodeToGIDMap *)

Section UnicodeToGID.
Variable cpUnicodeTable : list Z.
Variable codeToGidMap : gmap Z Z.

Lemma highest_mapped_code_Some codePoint n c :
  highest_mapped_code cpUnicodeTable codeToGidMap codePoint n = Some c ->
  0 <= c < Z.of_nat n
  /\ table_at cpUnicodeTable c = codePoint
  /\ is_Some (codeToGidMap !! c)
  /\ forall j, c < j < Z.of_nat n ->
               table_at cpUnicodeTable j = codePoint ->
               codeToGidMap !! j = None.
Proof.
  induction n as [| k IH]; [discriminate |].
  cbn [highest_mapped_code].
  destruct (Z.eqb_spec (table_at cpUnicodeTable (Z.of_nat k)) codePoint)
    as [Heq | Hne]; cbn [andb].
  - destruct (bool_decide_reflect (is_Some (codeToGidMap !! Z.of_nat k)))
      as [Hin | Hout].
    + intros [= <-]. split; [lia | split; [assumption | split; [assumption |]]].
      intros j Hj. lia.
    + intros Hc. destruct (IH Hc) as (Hrange & Hat & Hsome & Habove).
      split; [lia | split; [assumption | split; [assumption |]]].
      intros j Hj Hjat. destruct (decide (j = Z.of_nat k)) as [-> | Hjk].
      * now apply eq_None_not_Some.
      * apply Habove; [lia | assumption].
  - intros Hc. destruct (IH Hc) as (Hrange & Hat & Hsome & Habove).
    split; [lia | split; [assumption | split; [assumption |]]].
    intros j Hj Hjat. destruct (decide (j = Z.of_nat k)) as [-> | Hjk].
    + contradiction.
    + apply Habove; [lia | assumption].
Qed.

Lemma highest_mapped_code_above codePoint n c :
  0 <= c < Z.of_nat n ->
  table_at cpUnicodeTable c = codePoint ->
  is_Some (codeToGidMap !! c) ->
  exists c',
    highest_mapped_code cpUnicodeTable codeToGidMap codePoint n = Some c'
    /\ c <= c'.
Proof.
  induction n as [| k IH]; [lia |].
  intros Hc Hat Hsome. cbn [highest_mapped_code].
  destruct (Z.eqb_spec (table_at cpUnicodeTable (Z.of_nat k)) codePoint)
    as [Heq | Hne]; cbn [andb].
  - destruct (bool_decide_reflect (is_Some (codeToGidMap !! Z.of_nat k)))
      as [Hin | Hout].
    + exists (Z.of_nat k). split; [reflexivity | lia].
    + apply IH; try assumption.
      destruct (decide (c = Z.of_nat k)) as [-> | Hck]; [contradiction | lia].
  - apply IH; try assumption.
    destruct (decide (c = Z.of_nat k)) as [-> | Hck]; [contradiction | lia].
Qed.

(** The loop of [CreateUnicodeToGIDMap] over the codes below [n]. *)
Lemma lookup_CreateUnicodeToGIDMap_loop (unicodeMap : gmap Z Z) codePoint n :
  foldl (CreateUnicodeToGIDMap_step cpUnicodeTable codeToGidMap) unicodeMap
    (seqZ 0 (Z.of_nat n)) !! codePoint
  = if codePoint =? 0 then unicodeMap !! codePoint
    else
      match highest_mapped_code cpUnicodeTable codeToGidMap codePoint n with
      | Some c => codeToGidMap !! c
      | None => unicodeMap !! codePoint
      end.
Proof.
  induction n as [| k IH].
  - cbn. now destruct (codePoint =? 0).
  - rewrite seqZ_S, foldl_snoc, Z.add_0_l. cbn [highest_mapped_code].
    unfold CreateUnicodeToGIDMap_step at 1.
    destruct (Z.eqb_spec (table_at cpUnicodeTable (Z.of_nat k)) 0) as [Hnull | Hnn].
    + rewrite IH. destruct (Z.eqb_spec codePoint 0) as [| Hcp]; [reflexivity |].
      destruct (Z.eqb_spec (table_at cpUnicodeTable (Z.of_nat k)) codePoint)
        as [Heq | _]; [congruence | reflexivity].
    + destruct (codeToGidMap !! Z.of_nat k) as [gid |] eqn:Hgid.
      * destruct (Z.eqb_spec (table_at cpUnicodeTable (Z.of_nat k)) codePoint)
          as [Heq | Hne]; cbn [andb].
        -- rewrite Heq, lookup_insert_eq.
           destruct (Z.eqb_spec codePoint 0) as [| _]; [congruence |].
           now rewrite bool_decide_eq_true_2 by eauto.
        -- rewrite lookup_insert_ne by assumption. exact IH.
      * rewrite IH. destruct (codePoint =? 0); [reflexivity |].
        rewrite bool_decide_eq_false_2 by apply is_Some_None.
        now rewrite andb_false_r.
Qed.
End UnicodeToGID.

(** X18.  [CreateUnicodeToGIDMap] never enters the null code point; it
    maps the non-null entry of a code to the glyph of that code when the
    code has a glyph and no higher code with the same entry has one; and
    it leaves alone every code point that no code with a glyph holds. *)
Theorem CreateUnicodeToGIDMap_lookup (e : PdfBuiltInEncoding)
    (codeToGidMap unicodeMap : gmap Z Z) :
  let tbl := GetToUnicodeTable e in
  let result := CreateUnicodeToGIDMap e codeToGidMap unicodeMap in
  result !! 0 = unicodeMap !! 0
  /\ (forall c gid,
       0 <= c < 256 -> table_at tbl c <> 0 ->
       codeToGidMap !! c = Some gid ->
       (forall j, c < j < 256 -> table_at tbl j = table_at tbl c ->
                  codeToGidMap !! j = None) ->
       result !! table_at tbl c = Some gid)
  /\ (forall codePoint,
       (forall c, 0 <= c < 256 -> table_at tbl c = codePoint ->
                  codeToGidMap !! c = None) ->
       result !! codePoint = unicodeMap !! codePoint).
Proof.
  intros tbl result. subst result. unfold CreateUnicodeToGIDMap. fold tbl.
  assert (Hloop : forall codePoint,
    foldl (CreateUnicodeToGIDMap_step tbl codeToGidMap) unicodeMap (seqZ 0 256)
      !! codePoint
    = if codePoint =? 0 then unicodeMap !! codePoint
      else match highest_mapped_code tbl codeToGidMap codePoint 256 with
           | Some c => codeToGidMap !! c
           | None => unicodeMap !! codePoint
           end).
  { intros codePoint.
    exact (lookup_CreateUnicodeToGIDMap_loop tbl codeToGidMap unicodeMap
             codePoint 256). }
  split; [| split].
  - now rewrite Hloop.
  - intros c gid Hc Hnn Hgid Hlast.
    rewrite Hloop.
    destruct (Z.eqb_spec (table_at tbl c) 0) as [| _]; [contradiction |].
    destruct (highest_mapped_code_above tbl codeToGidMap (table_at tbl c) 256 c)
      as (c' & Hhigh & Hle); [exact Hc | reflexivity | rewrite Hgid; eauto |].
    rewrite Hhigh.
    apply highest_mapped_code_Some in Hhigh as (Hrange & Hat & Hsome & _).
    change (Z.of_nat 256) with 256 in Hrange.
    destruct (decide (c' = c)) as [-> | Hne]; [assumption |].
    rewrite (Hlast c') in Hsome by (lia || assumption).
    now apply is_Some_None in Hsome.
  - intros codePoint Hnone.
    rewrite Hloop.
    destruct (codePoint =? 0); [reflexivity |].
    destruct (highest_mapped_code tbl codeToGidMap codePoint 256) as [c |] eqn:Hc;
      [| reflexivity].
    apply highest_mapped_code_Some in Hc as (Hrange & Hat & Hsome & _).
    change (Z.of_nat 256) with 256 in Hrange.
    rewrite (Hnone c Hrange Hat) in Hsome. now apply is_Some_None in Hsome.
Qed.

Lemma CreateUnicodeToGIDMap_lookup_witness :
  let e := PdfBuiltInEncoding_new demo_table in
  let result := CreateUnicodeToGIDMap e {[66 := 7; 200 := 9]} ∅ in
  0 <= 66 < 256 /\ table_at demo_table 66 <> 0
  /\ ({[66 := 7; 200 := 9]} : gmap Z Z) !! 66 = Some 7
  /\ result !! 65 = Some 7
  /\ result !! 0 = None.
Proof.
  intros e result.
  assert (Hc : 0 <= 66 < 256) by lia.
  assert (Hnn : table_at demo_table 66 <> 0) by discriminate.
  assert (Hgid : ({[66 := 7; 200 := 9]} : gmap Z Z) !! 66 = Some 7)
    by reflexivity.
  destruct (CreateUnicodeToGIDMap_lookup e {[66 := 7; 200 := 9]} ∅)
    as (Hnull & Hglyph & _).
  refine (conj Hc (conj Hnn (conj Hgid (conj _ _)))).
  - apply (Hglyph 66 7 Hc Hnn Hgid).
    intros j Hj Hsame.
    rewrite lookup_insert_ne by lia.
    destruct (decide (j = 200)) as [-> | Hj200].
    + exfalso. revert Hsame. vm_compute. discriminate.
    + apply lookup_singleton_ne. lia.
  - exact Hnull.
Defined.

(** *** Serialisation *)

Section Literals.
Context (utls : Utls).

Lemma AppendUTF16CodeTo_step_hex stream first cp :
  AppendUTF16CodeTo_step utls (stream, first) cp
  = ((if first then stream else stream +:+ " ") +:+ utf16_hex utls cp, false).
Proof.
  unfold AppendUTF16CodeTo_step, utf16_hex.
  now rewrite hex_bytes_append.
Qed.

Lemma AppendUTF16CodeTo_steps_spaced codePoints stream :
  fst (foldl (AppendUTF16CodeTo_step utls) (stream, false) codePoints)
  = stream
    +:+ foldr (fun cp rest => " " +:+ utf16_hex utls cp +:+ rest) ""
          codePoints.
Proof.
  revert stream. induction codePoints as [| cp codePoints IH]; intros stream.
  - cbn. now rewrite string_app_nil_r.
  - cbn [foldl foldr]. rewrite AppendUTF16CodeTo_step_hex, IH.
    now rewrite !string_app_assoc.
Qed.

Lemma concat_space_cons (h : string) (codePoints : list Z) :
  String.concat " " (h :: (utf16_hex utls <$> codePoints))
  = h +:+ foldr (fun cp rest => " " +:+ utf16_hex utls cp +:+ rest) ""
            codePoints.
Proof.
  revert h. induction codePoints as [| cp codePoints IH]; intros h.
  - cbn. now rewrite string_app_nil_r.
  - cbn [fmap list_fmap foldr].
    change (String.concat " " (h :: utf16_hex utls cp
                                 :: (utf16_hex utls <$> codePoints)))
      with (h +:+ " "
            +:+ String.concat " " (utf16_hex utls cp
                                     :: (utf16_hex utls <$> codePoints))).
    now rewrite IH.
Qed.

(** X19.  [AppendUTF16CodeTo] appends one literal to the stream: an
    opening angle bracket, the hex characters of each code point in
    order with a single space between two code points and none at either
    end, and a closing angle bracket. *)
Theorem AppendUTF16CodeTo_literal (stream : string) (codePoints : list Z) :
  AppendUTF16CodeTo utls stream codePoints
  = stream +:+ "<"
    +:+ String.concat " " (utf16_hex utls <$> codePoints) +:+ ">".
Proof.
  unfold AppendUTF16CodeTo.
  destruct codePoints as [| cp codePoints].
  - cbn. now rewrite !string_app_assoc.
  - cbn [foldl]. rewrite AppendUTF16CodeTo_step_hex.
    pose proof (AppendUTF16CodeTo_steps_spaced codePoints
                  ((stream +:+ "<") +:+ utf16_hex utls cp)) as Hrest.
    destruct (foldl _ _ codePoints) as [s b]. cbn [fst] in Hrest.
    rewrite Hrest. cbn [fmap list_fmap]. rewrite concat_space_cons.
    now rewrite !string_app_assoc.
Qed.
End Literals.

(** X20.  The ToUnicode array of a built-in encoding has an entry for
    each of the 256 codes: the loop of [AppendToUnicodeEntries] run on a
    built-in encoding from code 0 to code 255 appends, for every code in
    order, the literal of its forward entry and a line feed, also for a
    code whose entry is the null code point.  (The constructor
    [PdfCharCode(code)] keeps the code.) *)
Theorem builtin_ToUnicode_lines (utls : Utls) (e : PdfBuiltInEncoding)
    (fuel : nat) (stream : string) (codePoints : CodePointSpan) :
  (forall code, Code (PdfCharCode_ctor utls code) = code) ->
  (256 < fuel)%nat ->
  AppendToUnicodeEntries_loop utls (builtin_map utls e) fuel 0 255 stream
    codePoints
  = Some (Ok (stream
              +:+ foldr String.append ""
                    ((fun code =>
                        AppendUTF16CodeTo utls ""
                          [table_at (GetToUnicodeTable e) code] +:+ LF)
                       <$> seqZ 0 256))).
Proof.
  intros Hctor Hfuel.
  rewrite (AppendToUnicodeEntries_loop_lines utls (builtin_map utls e)
             (builtin_lookup e) (builtin_lookup_of utls e) 255 256 fuel 0
             stream codePoints);
    [| lia | unfold UINT_MOD; lia | reflexivity | exact Hfuel].
  unfold bfrange_lines. change (255 - 0 + 1) with 256.
  assert (Hall : forall codes : list Z,
            Forall (fun code => 0 <= code < 256) codes ->
            omap (fun code =>
                    (fun cps => AppendUTF16CodeTo utls "" cps +:+ LF)
                      <$> builtin_lookup e (PdfCharCode_ctor utls code)) codes
            = (fun code =>
                 AppendUTF16CodeTo utls ""
                   [table_at (GetToUnicodeTable e) code] +:+ LF) <$> codes).
  { induction 1 as [| code codes Hcode _ IH]; [reflexivity |].
    cbn [omap list_omap fmap list_fmap]. unfold builtin_lookup at 1.
    rewrite Hctor.
    destruct (Z.leb_spec 256 code) as [| _]; [lia |].
    rewrite Z.geb_leb.
    destruct (Z.leb_spec 256 code) as [| _]; [lia |].
    cbn [option_fmap option_map]. f_equal. exact IH. }
  rewrite Hall; [reflexivity |].
  apply Forall_seqZ. intros code Hcode. lia.
Qed.

Lemma builtin_ToUnicode_lines_witness :
  (forall code, Code (PdfCharCode_ctor demo_utls code) = code)
  /\ (256 < 300)%nat
  /\ exists out,
       AppendToUnicodeEntries_loop demo_utls
         (builtin_map demo_utls (PdfBuiltInEncoding_new demo_table))
         300 0 255 "" []
       = Some (Ok out).
Proof.
  assert (Hctor : forall code, Code (PdfCharCode_ctor demo_utls code) = code)
    by reflexivity.
  assert (Hfuel : (256 < 300)%nat) by lia.
  refine (conj Hctor (conj Hfuel _)).
  eexists.
  exact (builtin_ToUnicode_lines demo_utls (PdfBuiltInEncoding_new demo_table)
           300 "" [] Hctor Hfuel).
Defined.

(** X21.  On the null encoding map every lookup and every decoding raises
    InternalLogic, whatever the text or the code, the empty text
    included; only [TryGetCharCode] on a span that is empty or has
    several code points returns false without raising. *)
Theorem PdfNullEncodingMap_raises (it : list Z) (codeUnit : PdfCharCode)
    (codePoints : CodePointSpan) (cid : PdfCID) (codePoint cidId : Z) :
  tryGetNextCodePoints PdfNullEncodingMap it codeUnit codePoints
  = Raise InternalLogic
  /\ TryGetNextCodePoints PdfNullEncodingMap it codePoints = Raise InternalLogic
  /\ TryGetNextCID CMap PdfNullEncodingMap it cid = Raise InternalLogic
  /\ TryGetCodePoints PdfNullEncodingMap codeUnit codePoints
     = Raise InternalLogic
  /\ TryGetCIDId PdfNullEncodingMap codeUnit cidId = Raise InternalLogic
  /\ TryGetCharCode PdfNullEncodingMap codePoint codeUnit = Raise InternalLogic
  /\ TryGetCharCode_span PdfNullEncodingMap [codePoint] codeUnit
     = Raise InternalLogic
  /\ (forall span, length span <> 1%nat ->
       TryGetCharCode_span PdfNullEncodingMap span codeUnit
       = Ok (false, PdfCharCode_null)).
Proof.
  repeat (split; [reflexivity |]).
  intros span Hsize. unfold TryGetCharCode_span.
  destruct (Z.eqb_spec (Z.of_nat (length span)) 1) as [| _]; [lia |].
  cbn. now rewrite orb_true_r.
Qed.

Lemma PdfNullEncodingMap_raises_witness :
  length [0x66; 0x69] <> 1%nat
  /\ TryGetCharCode_span PdfNullEncodingMap [0x66; 0x69] PdfCharCode_null
     = Ok (false, PdfCharCode_null).
Proof.
  assert (Hsize : length [0x66; 0x69] <> 1%nat) by (cbn; lia).
  split; [exact Hsize |].
  apply (PdfNullEncodingMap_raises [] PdfCharCode_null [] PdfCID_null 0 0).
  exact Hsize.
Defined.

(** *** CID entries of a one-byte map *)

Section CIDEntries.
Context (utls : Utls) (font : FontProgram) (m : PdfEncodingMap).
Context (lookup : PdfCharCode -> option CodePointSpan).
Hypothesis Hlookup : lookup_of m lookup.

Lemma AppendCIDMappingEntries_loop_entries lastCode (n : nat) :
  forall fuel code mappings codePoints,
    0 <= code -> lastCode + 1 < UINT_MOD ->
    Z.to_nat (lastCode + 1 - code) = n -> (n < fuel)%nat ->
    AppendCIDMappingEntries_loop utls font m fuel code lastCode mappings
      codePoints
    = Some (Ok (mappings ++ cid_entries utls font lookup code lastCode)).
Proof.
  induction n as [| k IH];
    intros fuel code mappings codePoints Hcode Hlast Hn Hfuel;
    (destruct fuel as [| fuel]; [lia |]); cbn [AppendCIDMappingEntries_loop].
  - destruct (Z.leb_spec code lastCode) as [Hle | Hgt]; [lia |].
    unfold cid_entries. rewrite seqZ_nil by lia. cbn.
    now rewrite app_nil_r.
  - destruct (Z.leb_spec code lastCode) as [Hle | Hgt]; [| lia].
    unfold cid_entries. rewrite seqZ_cons by lia.
    replace (Z.pred (lastCode - code + 1)) with (lastCode - Z.succ code + 1)
      by lia.
    replace (to_unsigned (code + 1)) with (Z.succ code) by wrap_lia.
    cbn [omap list_omap]. fold (cid_entries utls font lookup (Z.succ code) lastCode).
    unfold TryGetCodePoints.
    pose proof (Hlookup (PdfCharCode_ctor utls code) codePoints) as Hcall.
    destruct (lookup (PdfCharCode_ctor utls code)) as [found |].
    + rewrite Hcall.
      destruct (TryGetGID font (deref font found)) as [gid |];
        cbn [fmap option_fmap option_map].
      * rewrite (IH fuel) by lia. now rewrite <- app_assoc.
      * apply IH; lia.
    + destruct Hcall as (codePoints' & ->). apply IH; lia.
Qed.

Lemma writeCIDMapping_lines (mappings : list (PdfCharCode * Z)) stream :
  foldl (fun stream mapping =>
           writeCIDMapping utls font stream (fst mapping) (snd mapping))
        stream mappings
  = stream +:+ foldr String.append "" (cid_line utls font <$> mappings).
Proof.
  revert stream. induction mappings as [| mapping mappings IH]; intros stream.
  - cbn. now rewrite string_app_nil_r.
  - cbn [foldl fmap list_fmap foldr]. rewrite IH.
    unfold writeCIDMapping, cid_line. now rewrite !string_app_assoc.
Qed.

(** X22.  For a one-byte map whose lookups are those of [lookup],
    [AppendCIDMappingEntries] appends one [begincidchar] block: the
    number of entries, then one line with the hex char code and the
    glyph index for each code from FirstChar to LastChar, in ascending
    order, that the lookup finds and whose code point the font program
    has a glyph for, then [endcidchar].  The number printed is the
    number of lines. *)
Theorem AppendCIDMappingEntries_block (limits : PdfEncodingLimits)
    (fuel : nat) (stream : string) :
  let entries :=
    cid_entries utls font lookup (Code (FirstChar limits))
      (Code (LastChar limits)) in
  GetLimits m = Ok limits ->
  0 <= Code (FirstChar limits) ->
  Code (LastChar limits) + 1 < UINT_MOD ->
  (Z.to_nat (Code (LastChar limits) + 1 - Code (FirstChar limits)) < fuel)%nat ->
  AppendCIDMappingEntries utls font m fuel stream
  = Some (Ok (stream
              +:+ FormatTo font (Z.of_nat (length entries))
              +:+ " begincidchar" +:+ LF
              +:+ foldr String.append "" (cid_line utls font <$> entries)
              +:+ "endcidchar" +:+ LF)).
Proof.
  intros entries Hlimits Hfirst Hlast Hfuel. subst entries.
  unfold AppendCIDMappingEntries. rewrite Hlimits.
  rewrite (AppendCIDMappingEntries_loop_entries (Code (LastChar limits))
             _ fuel (Code (FirstChar limits)) [] [] Hfirst Hlast eq_refl Hfuel).
  cbn [app]. rewrite writeCIDMapping_lines.
  now rewrite !string_app_assoc.
Qed.
End CIDEntries.

Lemma AppendCIDMappingEntries_block_witness :
  GetLimits gap_map = Ok gap_limits
  /\ 0 <= Code (FirstChar gap_limits)
  /\ Code (LastChar gap_limits) + 1 < UINT_MOD
  /\ (Z.to_nat (Code (LastChar gap_limits) + 1 - Code (FirstChar gap_limits))
      < 4)%nat
  /\ AppendCIDMappingEntries demo_utls demo_font gap_map 4 ""
     = Some (Ok ("1 begincidchar" +:+ LF
                 +:+ "<41> 1" +:+ LF
                 +:+ "endcidchar" +:+ LF)).
Proof.
  assert (Hlimits : GetLimits gap_map = Ok gap_limits) by reflexivity.
  assert (Hfirst : 0 <= Code (FirstChar gap_limits)) by (cbn; lia).
  assert (Hlast : Code (LastChar gap_limits) + 1 < UINT_MOD)
    by (unfold UINT_MOD; cbn; lia).
  assert (Hfuel : (Z.to_nat (Code (LastChar gap_limits) + 1
                             - Code (FirstChar gap_limits)) < 4)%nat)
    by (cbn; lia).
  refine (conj Hlimits (conj Hfirst (conj Hlast (conj Hfuel _)))).
  rewrite (AppendCIDMappingEntries_block demo_utls demo_font gap_map
             (codespace_lookup gap_ranges)
             (codespace_lookup_of gap_limits gap_ranges)
             gap_limits 4 "" Hlimits Hfirst Hlast Hfuel).
  reflexivity.
Defined.

End EncodingMapMore.

(** ** Signer identities: comparison and hashing *)

Section SigningContextMore.
Import SigningContext.

Lemma lxor_disjoint_add a b n :
  0 <= n -> 0 <= b < 2 ^ n -> Z.lxor (a * 2 ^ n) b = a * 2 ^ n + b.
Proof.
  intros Hn Hb.
  assert (Hland : Z.land (a * 2 ^ n) b = 0).
  { pose proof (lor_disjoint_add a b n Hn Hb) as Hlor.
    pose proof (Z.add_lor_land (a * 2 ^ n) b) as Hsum. lia. }
  rewrite Z.lxor_lor by exact Hland.
  now apply lor_disjoint_add.
Qed.

Lemma hash_narrow_fields id :
  0 <= ObjectNumber (m_SignatureRef id) < 2 ^ 16 ->
  0 <= GenerationNumber (m_SignatureRef id) < 2 ^ 8 ->
  0 <= m_SignerIndex id < 2 ^ 32 ->
  hash id
  = ObjectNumber (m_SignatureRef id)
    + GenerationNumber (m_SignatureRef id) * 2 ^ 16
    + m_SignerIndex id * 2 ^ 24.
Proof.
  destruct id as [[obj gen] idx]. cbn. intros Hobj Hgen Hidx.
  unfold hash, GetSignatureRef, GetSignerIndex. cbn.
  rewrite !Z.shiftl_mul_pow2 by lia.
  replace (to_unsigned (gen * 2 ^ 16)) with (gen * 2 ^ 16) by wrap_lia.
  rewrite (Z.lxor_comm obj), lxor_disjoint_add by lia.
  replace (to_size_t idx) with idx by wrap_lia.
  replace (to_size_t (idx * 2 ^ 24)) with (idx * 2 ^ 24) by wrap_lia.
  replace (to_size_t (gen * 2 ^ 16 + obj)) with (gen * 2 ^ 16 + obj)
    by wrap_lia.
  rewrite Z.lxor_comm, lxor_disjoint_add by lia. lia.
Qed.

(** X23.  The hash tells signer ids apart as long as the object number
    fits 16 bits and the generation number 8 bits: two such ids with the
    same hash are the same id.  Beyond these widths the three shifted
    fields overlap, and different well-formed ids can share a hash. *)
Theorem hash_injective_on_narrow_fields :
  (forall a b,
     0 <= ObjectNumber (m_SignatureRef a) < 2 ^ 16 ->
     0 <= GenerationNumber (m_SignatureRef a) < 2 ^ 8 ->
     0 <= m_SignerIndex a < 2 ^ 32 ->
     0 <= ObjectNumber (m_SignatureRef b) < 2 ^ 16 ->
     0 <= GenerationNumber (m_SignatureRef b) < 2 ^ 8 ->
     0 <= m_SignerIndex b < 2 ^ 32 ->
     hash a = hash b -> a = b)
  /\ (exists a b,
       wf_signer_id a /\ wf_signer_id b /\ a <> b /\ hash a = hash b).
Proof.
  split.
  - intros a b Hobja Hgena Hidxa Hobjb Hgenb Hidxb.
    rewrite (hash_narrow_fields a Hobja Hgena Hidxa).
    rewrite (hash_narrow_fields b Hobjb Hgenb Hidxb).
    destruct a as [[obja gena] idxa], b as [[objb genb] idxb]. cbn in *.
    intros Hhash.
    assert (obja = objb /\ gena = genb /\ idxa = idxb) as (-> & -> & ->) by lia.
    reflexivity.
  - exists (mkSignerId (mkReference 65536 0) 0),
           (mkSignerId (mkReference 0 1) 0).
    unfold wf_signer_id, wf_reference. cbn.
    repeat split; try lia; discriminate.
Qed.

Lemma hash_injective_on_narrow_fields_witness :
  let a := mkSignerId (mkReference 12 1) 2 in
  0 <= ObjectNumber (m_SignatureRef a) < 2 ^ 16
  /\ 0 <= GenerationNumber (m_SignatureRef a) < 2 ^ 8
  /\ 0 <= m_SignerIndex a < 2 ^ 32
  /\ hash a = hash a
  /\ a = a.
Proof.
  intros a.
  assert (Hobj : 0 <= ObjectNumber (m_SignatureRef a) < 2 ^ 16) by (cbn; lia).
  assert (Hgen : 0 <= GenerationNumber (m_SignatureRef a) < 2 ^ 8) by (cbn; lia).
  assert (Hidx : 0 <= m_SignerIndex a < 2 ^ 32) by (cbn; lia).
  assert (Hhash : hash a = hash a) by reflexivity.
  refine (conj Hobj (conj Hgen (conj Hidx (conj Hhash _)))).
  exact (proj1 hash_injective_on_narrow_fields a a Hobj Hgen Hidx
           Hobj Hgen Hidx Hhash).
Defined.

(** X24.  [operator!=] of signer ids is the negation of [operator==];
    [operator==] is reflexive and symmetric; and ids that compare equal
    have the same hash, as a key of an unordered map must. *)
Theorem PdfSignerId_eq_ne_hash :
  (forall lhs rhs, PdfSignerId_ne lhs rhs = negb (PdfSignerId_eq lhs rhs))
  /\ (forall id, PdfSignerId_eq id id = true)
  /\ (forall lhs rhs, PdfSignerId_eq lhs rhs = PdfSignerId_eq rhs lhs)
  /\ (forall lhs rhs, PdfSignerId_eq lhs rhs = true -> hash lhs = hash rhs).
Proof.
  split; [| split; [| split]].
  - intros lhs rhs. unfold PdfSignerId_ne, PdfSignerId_eq, PdfReference_ne.
    now rewrite negb_andb.
  - intros id. unfold PdfSignerId_eq, PdfReference_eq.
    now rewrite !Z.eqb_refl.
  - intros lhs rhs. unfold PdfSignerId_eq, PdfReference_eq.
    now rewrite (Z.eqb_sym (ObjectNumber _)), (Z.eqb_sym (GenerationNumber _)),
      (Z.eqb_sym (m_SignerIndex _)).
  - intros lhs rhs. unfold PdfSignerId_eq.
    rewrite andb_true_iff, PdfReference_eq_true, Z.eqb_eq.
    intros (Href & Hidx). destruct lhs, rhs. cbn in *. now subst.
Qed.

Lemma PdfSignerId_eq_ne_hash_witness :
  let a := mkSignerId (mkReference 12 1) 2 in
  PdfSignerId_eq a a = true /\ hash a = hash a.
Proof.
  intros a.
  destruct PdfSignerId_eq_ne_hash as (_ & Hrefl & _ & Hhash).
  split; [exact (Hrefl a) | exact (Hhash a a (Hrefl a))].
Defined.

End SigningContextMore.
